(** * crawler/base.py: the [Crawler] engine as a transition system

    The engine runs one orchestrator (the body of [Crawler.run]), one task
    generator thread ([worker_task_generator]), a pool of network threads
    ([worker_network]) and a pool of parser threads ([worker_parser]).
    Each thread is embedded as a program counter over the statements of its
    Python function; one [step] of a thread executes one atomic statement
    (a queue operation, a flag write, a call of an external collaborator)
    on the shared state.  Blocking operations (a [put] on a full queue, a
    [get] on an empty one without timeout, [Event.wait], [Thread.join] and
    the orchestrator's [time.sleep] spin-waits) are steps that are not
    enabled ([None]) until the condition they wait for holds.  A run is any
    interleaving of enabled steps. *)

From Stdlib Require Import ZArith Lia.
From stdpp Require Import base list strings.

Open Scope Z_scope.

(** ** Values carried through the pipeline *)

(** [Request]: [rid] stands for the Python object identity. *)
Record Request := mkRequest {
  rid : nat;
  url : string;
  tag : string;
  network_try_count : Z
}.

Definition set_network_try_count (r : Request) (c : Z) : Request :=
  mkRequest (rid r) (url r) (tag r) c.

Record Response := mkResponse { resp_id : nat }.

(** Exceptions that reach the code.  [NetworkError] is the transport's
    transient error class; every other constructor is an [Exception]
    that is not a [NetworkError]. *)
Inductive Exc :=
| NetworkError (n : nat)
| KeyError (key : string)
| AssertionError
| UnknownTaskType (task : nat)
| RuntimeError (n : nat).

Definition is_network_error (e : Exc) : bool :=
  match e with NetworkError _ => true | _ => false end.

(** A Python value produced by a generator: a [Request] instance or
    anything else. *)
Inductive PyVal := VRequest (r : Request) | VOther (v : nat).

(** One pull from a lazy Python iterator: a yielded value or a raised
    exception; the end of the list is [StopIteration]. *)
Inductive SeqItem := SYield (v : PyVal) | SRaise (e : Exc).

(** [network_transport.process_request(req)]: returns or raises. *)
Inductive FetchResult := FOk (resp : Response) | FRaise (e : Exc).

(** [handler(req, resp)]: raises, returns [None], or returns a generator. *)
Inductive HandlerResult :=
| HRaise (e : Exc)
| HNone
| HIter (items : list SeqItem).

Definition Handler := Request -> Response -> HandlerResult.

(** ** [queue.Queue] *)

Record Queue (A : Type) := mkQueue { maxsize : Z; q_items : list A }.
Arguments mkQueue {A} _ _.
Arguments maxsize {A} _.
Arguments q_items {A} _.

Definition qsize {A} (q : Queue A) : nat := length (q_items q).

(** [Queue.full]: [0 < self.maxsize <= self._qsize()]. *)
Definition q_full {A} (q : Queue A) : bool :=
  (0 <? maxsize q) && (maxsize q <=? Z.of_nat (qsize q)).

(** [put] blocks while the queue is full. *)
Definition q_put {A} (q : Queue A) (x : A) : option (Queue A) :=
  if q_full q then None else Some (mkQueue (maxsize q) (q_items q ++ [x])).

(** [get] blocks while the queue is empty. *)
Definition q_get {A} (q : Queue A) : option (A * Queue A) :=
  match q_items q with
  | [] => None
  | x :: rest => Some (x, mkQueue (maxsize q) rest)
  end.

(** The number of items a [put] can add before blocking: [maxsize <= 0]
    means an unbounded queue. *)
Definition q_capacity {A} (q : Queue A) : option Z :=
  if 0 <? maxsize q then Some (maxsize q) else None.

(** ** [threading.Event] *)

Record Event := mkEvent { ev_flag : bool }.

Definition is_set (e : Event) : bool := ev_flag e.

(** Truth value of an [Event] object in [if event:]: the class defines
    neither [__bool__] nor [__len__], so every instance is true. *)
Definition event_truthy (e : Event) : bool := true.

(** ** Configuration and external collaborators *)

Record Config := mkConfig {
  num_network_threads : Z;
  num_parsers : Z;
  network_try_limit : Z;
  task_try_limit : Z
}.

(** [self.config] built in [Crawler.__init__]; [cpu_count] is
    [multiprocessing.cpu_count()]. *)
Definition make_config (nnt ntl ttl cpu_count : Z) : Config :=
  mkConfig nnt (Z.max 1 (cpu_count / 2)) ntl ttl.

Record Env := mkEnv {
  config : Config;
  transport : Request -> FetchResult;
  handlers : list (string * Handler)   (* self._handlers *)
}.

(** [self._handlers[tag]]: [None] is a [KeyError]. *)
Fixpoint lookup_handler (hs : list (string * Handler)) (k : string)
    : option Handler :=
  match hs with
  | [] => None
  | (k', h) :: hs' => if String.eqb k k' then Some h else lookup_handler hs' k
  end.

(** ** Threads *)

(** [worker_network]; the pc names the statement about to run. *)
Inductive NetPc :=
| NGet                                   (* req = self._request_queue.get() *)
| NGot (req : option Request)            (* if req is None: return; active = True *)
| NFetch (req : Request)                 (* process_request(req) and its except clauses *)
| NRetry (req : Request)                 (* self._request_queue.put(req) *)
| NReject (req : Request) (ex : Exc)     (* stat.store; process_rejected_request *)
| NPutResult (req : Request) (resp : Response)  (* self._response_queue.put((req, resp)) *)
| NFinally                               (* finally: active = False *)
| NReturned.

Record NetThread := mkNet { n_pc : NetPc; n_active : bool }.

(** [worker_parser]. *)
Inductive ParserPc :=
| PGet                                   (* self._response_queue.get(True, 0.5) *)
| PEmpty                                 (* except Empty: if self._pause_event: *)
| PWait                                  (* self._resume_event.wait() *)
| PResumed                               (* paused = False *)
| PGot (task : option (Request * Response))
| PIter (rest : list SeqItem)            (* for item in hdl_result *)
| PReturned
| PCrashed (ex : Exc).                   (* exception escaped the loop *)

Record ParserThread := mkParser { p_pc : ParserPc; p_paused : bool }.

(** [worker_task_generator]. *)
Inductive GenPc :=
| GNext (rest : list SeqItem)            (* for task in self.task_generator() *)
| GPut (task : Request) (rest : list SeqItem)  (* self._request_queue.put(task) *)
| GFinished.

Inductive RunResult := Returned | Raised (ex : Exc).

(** The body of [Crawler.run] after the threads are started. *)
Inductive OrchPc :=
| OLoop                                  (* while self._work_allowed *)
| OPoll                                  (* self._fatal_errors.get(True, 0.1) *)
| OCheckGen                              (* if not task_generator_thread.is_alive() *)
| OCheckTQ1 | OCheckRQ1                  (* first qsize() checks *)
| OPause                                 (* self._pause_event.set() *)
| OWaitPaused                            (* while any(not x['paused'] ...) *)
| OCheckTQ2 | OCheckRQ2 | OCheckActive   (* the re-check *)
| OShutdown                              (* self._work_allowed = False *)
| OUnpause                               (* self._pause_event.clear() *)
| OResume                                (* self._resume_event.set() *)
| OWaitUnpaused                          (* while any(x['paused'] ...) *)
| OClearResume                           (* self._resume_event.clear() *)
| OFinTQ (pending : option Exc) (k : nat)   (* finally: k more None into _request_queue *)
| OFinRQ (pending : option Exc) (k : nat)   (* k more None into _response_queue *)
| OJoinNet (pending : option Exc) (i : nat) (* join of the i-th net thread *)
| OJoinPar (pending : option Exc) (i : nat) (* join of the i-th parser thread *)
| OFinGet (pending : option Exc)            (* self._fatal_errors.get(True, 0.1) *)
| OHook (pending : option Exc)              (* self.shutdown_hook() *)
| ODone (res : RunResult).

(** What the orchestrator did, in order (instrumentation). *)
Inductive OEvent :=
| ELoopExit                   (* the while loop ended *)
| EMainRaise (ex : Exc)       (* raise ex inside the while loop *)
| ESentTQ | ESentRQ           (* one None put on a queue *)
| EJoinNet (i : nat) | EJoinPar (i : nat)
| EFinalRaise (ex : Exc)      (* raise ex at the end of the finally block *)
| EHook.                      (* shutdown_hook() called *)

(** Calls of external collaborators. *)
Inductive Call :=
| CFetch (req : Request)
| CStat (key : string) (req_url : string) (ex : Exc)
| CRejected (req : Request) (resp : option Response) (ex : Exc).

Record State := mkState {
  request_queue : Queue (option Request);
  response_queue : Queue (option (Request * Response));
  fatal_errors : list Exc;
  work_allowed : bool;
  pause_event : Event;
  resume_event : Event;
  gen_thread : GenPc;
  net_threads : list NetThread;
  parser_threads : list ParserThread;
  orch_pc : OrchPc;
  orch_log : list OEvent;
  calls : list Call
}.

(** Field updates. *)
Definition with_request_queue q s := mkState q (response_queue s) (fatal_errors s) (work_allowed s) (pause_event s) (resume_event s) (gen_thread s) (net_threads s) (parser_threads s) (orch_pc s) (orch_log s) (calls s).
Definition with_response_queue q s := mkState (request_queue s) q (fatal_errors s) (work_allowed s) (pause_event s) (resume_event s) (gen_thread s) (net_threads s) (parser_threads s) (orch_pc s) (orch_log s) (calls s).
Definition with_fatal_errors f s := mkState (request_queue s) (response_queue s) f (work_allowed s) (pause_event s) (resume_event s) (gen_thread s) (net_threads s) (parser_threads s) (orch_pc s) (orch_log s) (calls s).
Definition with_work_allowed b s := mkState (request_queue s) (response_queue s) (fatal_errors s) b (pause_event s) (resume_event s) (gen_thread s) (net_threads s) (parser_threads s) (orch_pc s) (orch_log s) (calls s).
Definition with_pause_event e s := mkState (request_queue s) (response_queue s) (fatal_errors s) (work_allowed s) e (resume_event s) (gen_thread s) (net_threads s) (parser_threads s) (orch_pc s) (orch_log s) (calls s).
Definition with_resume_event e s := mkState (request_queue s) (response_queue s) (fatal_errors s) (work_allowed s) (pause_event s) e (gen_thread s) (net_threads s) (parser_threads s) (orch_pc s) (orch_log s) (calls s).
Definition with_gen_thread g s := mkState (request_queue s) (response_queue s) (fatal_errors s) (work_allowed s) (pause_event s) (resume_event s) g (net_threads s) (parser_threads s) (orch_pc s) (orch_log s) (calls s).
Definition with_net_threads n s := mkState (request_queue s) (response_queue s) (fatal_errors s) (work_allowed s) (pause_event s) (resume_event s) (gen_thread s) n (parser_threads s) (orch_pc s) (orch_log s) (calls s).
Definition with_parser_threads p s := mkState (request_queue s) (response_queue s) (fatal_errors s) (work_allowed s) (pause_event s) (resume_event s) (gen_thread s) (net_threads s) p (orch_pc s) (orch_log s) (calls s).
Definition with_orch pc l s := mkState (request_queue s) (response_queue s) (fatal_errors s) (work_allowed s) (pause_event s) (resume_event s) (gen_thread s) (net_threads s) (parser_threads s) pc l (calls s).
Definition with_calls c s := mkState (request_queue s) (response_queue s) (fatal_errors s) (work_allowed s) (pause_event s) (resume_event s) (gen_thread s) (net_threads s) (parser_threads s) (orch_pc s) (orch_log s) c.

(** [self._fatal_errors.put(ex)] (unbounded queue, never blocks). *)
Definition push_fatal (ex : Exc) (s : State) : State :=
  with_fatal_errors (fatal_errors s ++ [ex]) s.

Definition set_net (s : State) (i : nat) (th : NetThread) : State :=
  with_net_threads (<[i := th]> (net_threads s)) s.

Definition set_parser (s : State) (i : nat) (th : ParserThread) : State :=
  with_parser_threads (<[i := th]> (parser_threads s)) s.

(** ** [Crawler.worker_task_generator] *)
Definition gen_step (s : State) : option State :=
  match gen_thread s with
  | GNext [] => Some (with_gen_thread GFinished s)
  | GNext (SRaise ex :: _) =>
      (* except Exception as ex: self._fatal_errors.put(ex) *)
      Some (push_fatal ex (with_gen_thread GFinished s))
  | GNext (SYield task :: rest) =>
      if negb (work_allowed s) then Some (with_gen_thread GFinished s)
      else match task with
           | VRequest r => Some (with_gen_thread (GPut r rest) s)
           | VOther v =>
               (* raise UnknownTaskType(...), caught by the except clause *)
               Some (push_fatal (UnknownTaskType v) (with_gen_thread GFinished s))
           end
  | GPut r rest =>
      match q_put (request_queue s) (Some r) with
      | Some q => Some (with_request_queue q (with_gen_thread (GNext rest) s))
      | None => None
      end
  | GFinished => None
  end.

(** ** [Crawler.worker_network] (thread number [i]) *)
Definition net_step (env : Env) (i : nat) (th : NetThread) (s : State)
    : option State :=
  let act := n_active th in
  match n_pc th with
  | NGet =>
      match q_get (request_queue s) with
      | Some (req, q) => Some (with_request_queue q (set_net s i (mkNet (NGot req) act)))
      | None => None
      end
  | NGot None => Some (set_net s i (mkNet NReturned act))
  | NGot (Some req) => Some (set_net s i (mkNet (NFetch req) true))
  | NFetch req =>
      let s := with_calls (calls s ++ [CFetch req]) s in
      match transport env req with
      | FOk resp => Some (set_net s i (mkNet (NPutResult req resp) act))
      | FRaise ex =>
          if is_network_error ex then
            (* req.network_try_count += 1 *)
            let req := set_network_try_count req (network_try_count req + 1) in
            if network_try_limit (config env) <? network_try_count req
            then Some (set_net s i (mkNet (NReject req ex) act))
            else Some (set_net s i (mkNet (NRetry req) act))
          else
            (* except Exception as ex: self._fatal_errors.put(ex) *)
            Some (push_fatal ex (set_net s i (mkNet NFinally act)))
      end
  | NRetry req =>
      match q_put (request_queue s) (Some req) with
      | Some q => Some (with_request_queue q (set_net s i (mkNet NFinally act)))
      | None => None
      end
  | NReject req ex =>
      Some (with_calls (calls s ++ [CStat "network_try_limit" (url req) ex;
                                    CRejected req None ex])
              (set_net s i (mkNet NFinally act)))
  | NPutResult req resp =>
      match q_put (response_queue s) (Some (req, resp)) with
      | Some q => Some (with_response_queue q (set_net s i (mkNet NFinally act)))
      | None => None
      end
  | NFinally => Some (set_net s i (mkNet NGet false))
  | NReturned => None
  end.

(** ** [Crawler.worker_parser] (thread number [i]) *)
Definition parser_step (env : Env) (i : nat) (th : ParserThread) (s : State)
    : option State :=
  let paused := p_paused th in
  match p_pc th with
  | PGet =>
      match q_get (response_queue s) with
      | Some (task, q) => Some (with_response_queue q (set_parser s i (mkParser (PGot task) paused)))
      | None => (* the 0.5s timeout elapses: Empty *)
          Some (set_parser s i (mkParser PEmpty paused))
      end
  | PEmpty =>
      if event_truthy (pause_event s)
      then Some (set_parser s i (mkParser PWait true))
      else Some (set_parser s i (mkParser PGet paused))
  | PWait =>
      if is_set (resume_event s)
      then Some (set_parser s i (mkParser PResumed paused))
      else None
  | PResumed => Some (set_parser s i (mkParser PGet false))
  | PGot None => Some (set_parser s i (mkParser PReturned paused))
  | PGot (Some (req, resp)) =>
      match lookup_handler (handlers env) (tag req) with
      | None =>
          (* handler = self._handlers[req.tag] is outside the try *)
          Some (set_parser s i (mkParser (PCrashed (KeyError (tag req))) paused))
      | Some handler =>
          match handler req resp with
          | HRaise ex => Some (push_fatal ex (set_parser s i (mkParser PGet paused)))
          | HNone => Some (set_parser s i (mkParser PGet paused))
          | HIter items => Some (set_parser s i (mkParser (PIter items) paused))
          end
      end
  | PIter [] => Some (set_parser s i (mkParser PGet paused))
  | PIter (SRaise ex :: _) => Some (push_fatal ex (set_parser s i (mkParser PGet paused)))
  | PIter (SYield (VOther _) :: _) =>
      (* assert isinstance(item, Request) *)
      Some (push_fatal AssertionError (set_parser s i (mkParser PGet paused)))
  | PIter (SYield (VRequest r) :: rest) =>
      match q_put (request_queue s) (Some r) with
      | Some q => Some (with_request_queue q (set_parser s i (mkParser (PIter rest) paused)))
      | None => None
      end
  | PReturned => None
  | PCrashed _ => None
  end.

(** ** [Crawler.run]: the orchestrator *)

Definition net_finished (th : NetThread) : bool :=
  match n_pc th with NReturned => true | _ => false end.

Definition parser_finished (th : ParserThread) : bool :=
  match p_pc th with PReturned | PCrashed _ => true | _ => false end.

(** [task_generator_thread.is_alive()]. *)
Definition gen_alive (g : GenPc) : bool :=
  match g with GFinished => false | _ => true end.

Definition result_of (pending : option Exc) : RunResult :=
  match pending with Some ex => Raised ex | None => Returned end.

Definition orch_step (env : Env) (s : State) : option State :=
  let cfg := config env in
  let go pc := Some (with_orch pc (orch_log s) s) in
  let log pc ev := with_orch pc (orch_log s ++ [ev]) s in
  match orch_pc s with
  | OLoop =>
      if work_allowed s then go OPoll
      else Some (log (OFinTQ None (Z.to_nat (num_network_threads cfg))) ELoopExit)
  | OPoll =>
      match fatal_errors s with
      | ex :: rest =>
          (* raise ex: control enters the finally block *)
          Some (with_fatal_errors rest
                  (log (OFinTQ (Some ex) (Z.to_nat (num_network_threads cfg))) (EMainRaise ex)))
      | [] => go OCheckGen
      end
  | OCheckGen => if gen_alive (gen_thread s) then go OLoop else go OCheckTQ1
  | OCheckTQ1 => if Nat.eqb (qsize (request_queue s)) 0 then go OCheckRQ1 else go OLoop
  | OCheckRQ1 => if Nat.eqb (qsize (response_queue s)) 0 then go OPause else go OLoop
  | OPause => Some (with_pause_event (mkEvent true) (with_orch OWaitPaused (orch_log s) s))
  | OWaitPaused =>
      if forallb p_paused (parser_threads s) then go OCheckTQ2 else None
  | OCheckTQ2 => if Nat.eqb (qsize (request_queue s)) 0 then go OCheckRQ2 else go OUnpause
  | OCheckRQ2 => if Nat.eqb (qsize (response_queue s)) 0 then go OCheckActive else go OUnpause
  | OCheckActive =>
      if forallb (fun x => negb (n_active x)) (net_threads s) then go OShutdown else go OUnpause
  | OShutdown => Some (with_work_allowed false (with_orch OUnpause (orch_log s) s))
  | OUnpause => Some (with_pause_event (mkEvent false) (with_orch OResume (orch_log s) s))
  | OResume => Some (with_resume_event (mkEvent true) (with_orch OWaitUnpaused (orch_log s) s))
  | OWaitUnpaused =>
      if existsb p_paused (parser_threads s) then None else go OClearResume
  | OClearResume => Some (with_resume_event (mkEvent false) (with_orch OLoop (orch_log s) s))
  | OFinTQ p (S k) =>
      match q_put (request_queue s) None with
      | Some q => Some (with_request_queue q (log (OFinTQ p k) ESentTQ))
      | None => None
      end
  | OFinTQ p O => go (OFinRQ p (Z.to_nat (num_parsers cfg)))
  | OFinRQ p (S k) =>
      match q_put (response_queue s) None with
      | Some q => Some (with_response_queue q (log (OFinRQ p k) ESentRQ))
      | None => None
      end
  | OFinRQ p O => go (OJoinNet p 0)
  | OJoinNet p i =>
      match net_threads s !! i with
      | Some th => if net_finished th then Some (log (OJoinNet p (S i)) (EJoinNet i)) else None
      | None => go (OJoinPar p 0)
      end
  | OJoinPar p i =>
      match parser_threads s !! i with
      | Some th => if parser_finished th then Some (log (OJoinPar p (S i)) (EJoinPar i)) else None
      | None => go (OFinGet p)
      end
  | OFinGet p =>
      match fatal_errors s with
      | ex :: rest => Some (with_fatal_errors rest (log (ODone (Raised ex)) (EFinalRaise ex)))
      | [] => go (OHook p)
      end
  | OHook p => Some (log (ODone (result_of p)) EHook)
  | ODone _ => None
  end.

(** ** Interleaving *)

Inductive Tid := TOrch | TGen | TNet (i : nat) | TPar (i : nat).

Definition step (env : Env) (t : Tid) (s : State) : option State :=
  match t with
  | TOrch => orch_step env s
  | TGen => gen_step s
  | TNet i =>
      match net_threads s !! i with
      | Some th => net_step env i th s
      | None => None
      end
  | TPar i =>
      match parser_threads s !! i with
      | Some th => parser_step env i th s
      | None => None
      end
  end.

(** Run a schedule; [None] when a scheduled thread cannot step. *)
Fixpoint run_sched (env : Env) (ts : list Tid) (s : State) : option State :=
  match ts with
  | [] => Some s
  | t :: ts' =>
      match step env t s with
      | Some s' => run_sched env ts' s'
      | None => None
      end
  end.

(** The state right after [Crawler(...)] and the thread start-up of
    [run()]: queues sized from [self.config], [start_threads] records
    [{'active': False, 'paused': False}] per thread, the generator
    thread about to pull from [tasks]. *)
Definition init_state (cfg : Config) (tasks : list SeqItem) : State :=
  mkState (mkQueue (num_network_threads cfg) [])
          (mkQueue (num_parsers cfg) [])
          [] true (mkEvent false) (mkEvent false)
          (GNext tasks)
          (repeat (mkNet NGet false) (Z.to_nat (num_network_threads cfg)))
          (repeat (mkParser PGet false) (Z.to_nat (num_parsers cfg)))
          OLoop [] [].

Inductive reachable (env : Env) : State -> Prop :=
| reach_init tasks : reachable env (init_state (config env) tasks)
| reach_step t s s' : reachable env s -> step env t s = Some s' -> reachable env s'.

(** ** Concrete configurations used by the examples *)

Definition req0 : Request := mkRequest 0 "http://a/" "a" 0.

(** One network thread, one parser, [network_try_limit = 2]; the
    transport always raises a transient [NetworkError]. *)
Definition env_flaky : Env :=
  mkEnv (mkConfig 1 1 2 10) (fun _ => FRaise (NetworkError 7)) [].

(** The orchestrator's quiescence check interleaved with a network
    thread that re-enqueues a failed request. *)
Definition sched_retry_race : list Tid :=
  [TGen; TGen; TGen;                   (* generator: put req0, then finish *)
   TNet 0; TNet 0; TNet 0;             (* get req0, active = True, fetch fails *)
   TPar 0; TPar 0;                     (* parser: Empty, paused = True, wait *)
   TOrch; TOrch; TOrch; TOrch; TOrch;  (* loop, poll, generator dead, TQ 0, RQ 0 *)
   TOrch; TOrch;                       (* pause set, all parsers paused *)
   TOrch;                              (* re-check: request queue size 0 *)
   TNet 0; TNet 0;                     (* put req0 back, active = False *)
   TOrch; TOrch].                      (* re-check: result queue 0, no net thread active *)

Definition req1 : Request := mkRequest 1 "http://b/" "a" 0.

(** The transport raises a non-transient error: [RuntimeError 1] for
    [req0], [RuntimeError 2] for every other request. *)
Definition env_broken (nnt : Z) : Env :=
  mkEnv (mkConfig nnt 1 2 10)
        (fun r => FRaise (RuntimeError (if Nat.eqb (rid r) 0 then 1 else 2))) [].

(** A fetch failure reaches the orchestrator while the generator thread
    still has a task to pull; the run ends before it is scheduled again. *)
Definition sched_fatal_gen_alive : list Tid :=
  [TGen; TGen;                         (* put req0 *)
   TNet 0; TNet 0; TNet 0; TNet 0;     (* get, active, fetch raises, finally *)
   TOrch; TOrch;                       (* loop, poll: raise *)
   TOrch; TOrch; TOrch; TOrch;         (* None into each queue *)
   TNet 0; TNet 0; TPar 0; TPar 0;     (* workers take their None and return *)
   TOrch; TOrch; TOrch; TOrch;         (* join net 0, join parser 0 *)
   TOrch; TOrch].                      (* final get (empty), shutdown_hook *)

(** Two network threads each push a fatal error. *)
Definition sched_two_fatal : list Tid :=
  [TGen; TGen; TGen; TGen; TGen;        (* put req0, req1, finish *)
   TNet 0; TNet 0; TNet 0; TNet 0;      (* req0: RuntimeError 1 *)
   TNet 1; TNet 1; TNet 1; TNet 1;      (* req1: RuntimeError 2 *)
   TOrch; TOrch;                        (* loop, poll: raise RuntimeError 1 *)
   TOrch; TOrch; TOrch; TOrch; TOrch;   (* two None into the request queue, one into the result queue *)
   TNet 0; TNet 0; TNet 1; TNet 1; TPar 0; TPar 0;
   TOrch; TOrch; TOrch; TOrch; TOrch;   (* joins *)
   TOrch].                              (* final get finds RuntimeError 2 *)

Definition resp0 : Response := mkResponse 0.

(** Every fetch succeeds; no handler is registered for tag "a". *)
Definition env_no_handler : Env :=
  mkEnv (mkConfig 1 1 2 10) (fun _ => FOk resp0) [].

Definition sched_missing_handler : list Tid :=
  [TGen; TGen; TGen;                   (* put req0, finish *)
   TNet 0; TNet 0; TNet 0; TNet 0;     (* get, active, fetch, put (req0, resp0) *)
   TPar 0; TPar 0].                    (* get the pair, self._handlers["a"] *)

(** ** Properties of states used by the theorems *)

Definition start_event (pending : option Exc) : OEvent :=
  match pending with Some ex => EMainRaise ex | None => ELoopExit end.

(** The orchestrator's log once the finally block has put every [None]. *)
Definition sent_log (cfg : Config) (pending : option Exc) : list OEvent :=
  [start_event pending] ++ repeat ESentTQ (Z.to_nat (num_network_threads cfg))
                        ++ repeat ESentRQ (Z.to_nat (num_parsers cfg)).

(** ... and once it has joined every network and parser thread. *)
Definition joined_log (cfg : Config) (pending : option Exc) : list OEvent :=
  sent_log cfg pending
    ++ map EJoinNet (seq 0 (Z.to_nat (num_network_threads cfg)))
    ++ map EJoinPar (seq 0 (Z.to_nat (num_parsers cfg))).

Definition nets_finished_below (s : State) (i : nat) : Prop :=
  forall j th, (j < i)%nat -> net_threads s !! j = Some th -> net_finished th = true.

Definition parsers_finished_below (s : State) (i : nat) : Prop :=
  forall j th, (j < i)%nat -> parser_threads s !! j = Some th -> parser_finished th = true.

(** Every network and every parser thread has returned (or died). *)
Definition workers_finished (s : State) : Prop :=
  (forall j th, net_threads s !! j = Some th -> net_finished th = true) /\
  (forall j th, parser_threads s !! j = Some th -> parser_finished th = true).

(** What the orchestrator has done, given where it is. *)
Definition orch_inv (cfg : Config) (s : State) : Prop :=
  let N := Z.to_nat (num_network_threads cfg) in
  let M := Z.to_nat (num_parsers cfg) in
  match orch_pc s with
  | OFinTQ p k => (k <= N)%nat /\ orch_log s = [start_event p] ++ repeat ESentTQ (N - k)
  | OFinRQ p k =>
      (k <= M)%nat /\
      orch_log s = [start_event p] ++ repeat ESentTQ N ++ repeat ESentRQ (M - k)
  | OJoinNet p i =>
      (i <= N)%nat /\ orch_log s = sent_log cfg p ++ map EJoinNet (seq 0 i) /\
      nets_finished_below s i
  | OJoinPar p i =>
      (i <= M)%nat /\
      orch_log s = sent_log cfg p ++ map EJoinNet (seq 0 N) ++ map EJoinPar (seq 0 i) /\
      nets_finished_below s N /\ parsers_finished_below s i
  | OFinGet p | OHook p => orch_log s = joined_log cfg p /\ workers_finished s
  | ODone r =>
      workers_finished s /\
      exists p, (r = result_of p /\ orch_log s = joined_log cfg p ++ [EHook]) \/
                (exists ex, r = Raised ex /\ orch_log s = joined_log cfg p ++ [EFinalRaise ex])
  | _ => orch_log s = []
  end.

(** Every pair in the result queue, and every pair a network thread is
    about to put there, comes from a fetch that returned. *)
Definition results_from_fetches (env : Env) (s : State) : Prop :=
  (forall r resp, Some (r, resp) ∈ q_items (response_queue s) ->
     transport env r = FOk resp /\ CFetch r ∈ calls s) /\
  (forall j th r resp, net_threads s !! j = Some th -> n_pc th = NPutResult r resp ->
     transport env r = FOk resp /\ CFetch r ∈ calls s).

(** A run of [Crawler.run] following a schedule, from the start. *)
Definition run_from (env : Env) (tasks : list SeqItem) (ts : list Tid) : option State :=
  run_sched env ts (init_state (config env) tasks).

Definition final_state (env : Env) (tasks : list SeqItem) (ts : list Tid) : State :=
  match run_from env tasks ts with
  | Some s => s
  | None => init_state (config env) tasks
  end.

Definition tasks01 : list SeqItem := [SYield (VRequest req0); SYield (VRequest req1)].

(** The orchestrator about to execute [self._work_allowed = False]. *)
Definition st_race : State :=
  final_state env_flaky [SYield (VRequest req0)] sched_retry_race.

Definition st_fatal_gen_alive : State :=
  final_state (env_broken 1) tasks01 sched_fatal_gen_alive.

Definition st_two_fatal : State :=
  final_state (env_broken 2) tasks01 sched_two_fatal.

Definition st_missing_handler : State :=
  final_state env_no_handler [SYield (VRequest req0)] sched_missing_handler.

(** The generator has put [req0] on the request queue and finished. *)
Definition st_req0_queued : State :=
  final_state env_flaky [SYield (VRequest req0)] [TGen; TGen; TGen].

(** Network thread 0 is about to call [process_request(req0)]. *)
Definition st_req0_fetching : State :=
  final_state env_flaky [SYield (VRequest req0)] [TGen; TGen; TGen; TNet 0; TNet 0].

(** [req0] fetched three times ([network_try_limit = 2]) and rejected. *)
Definition st_req0_rejected : State :=
  final_state env_flaky [SYield (VRequest req0)]
    ([TGen; TGen; TGen] ++ repeat (TNet 0) 15).

(** The orchestrator statements that follow a [False] answer of
    [task_generator_thread.is_alive()], up to the next [while] test. *)
Definition after_gen_check (pc : OrchPc) : bool :=
  match pc with
  | OCheckTQ1 | OCheckRQ1 | OPause | OWaitPaused | OCheckTQ2 | OCheckRQ2
  | OCheckActive | OShutdown | OUnpause | OResume | OWaitUnpaused
  | OClearResume => true
  | _ => false
  end.

(** Work is disallowed only after the generator has finished. *)
Definition gen_done_inv (s : State) : Prop :=
  negb (work_allowed s) || after_gen_check (orch_pc s) = true ->
  gen_thread s = GFinished.

(** Every fetch succeeds; the handler for tag "a" raises. *)
Definition env_raising_handler : Env :=
  mkEnv (mkConfig 1 1 2 10) (fun _ => FOk resp0)
        [("a", fun _ _ => HRaise (RuntimeError 3))].

(** Parser 0 has taken [(req0, resp0)] from the result queue. *)
Definition st_parser_got : State :=
  final_state env_raising_handler [SYield (VRequest req0)]
    [TGen; TGen; TGen; TNet 0; TNet 0; TNet 0; TNet 0; TPar 0].

(** The error, if any, that the statement at [pc] raises inside the
    [try] of [worker_parser]: the handler call, the [for] loop over its
    result, or the [assert]. *)
Definition parser_try_error (env : Env) (pc : ParserPc) : option Exc :=
  match pc with
  | PGot (Some (req, resp)) =>
      match lookup_handler (handlers env) (tag req) with
      | Some h => match h req resp with HRaise ex => Some ex | _ => None end
      | None => None
      end
  | PIter (SRaise ex :: _) => Some ex
  | PIter (SYield (VOther _) :: _) => Some AssertionError
  | _ => None
  end.

(** ** [Crawler.register_handlers] *)

(** An attribute found by [getattr(self, key)]: callable or not. *)
Inductive Attr :=
| ACallable (h : Handler)
| AOther.

(** [d[k] = v] on a dict: an existing key keeps its place. *)
Fixpoint dict_set (d : list (string * Handler)) (k : string) (v : Handler)
    : list (string * Handler) :=
  match d with
  | [] => [(k, v)]
  | (k', v') :: d' => if String.eqb k k' then (k', v) :: d' else (k', v') :: dict_set d' k v
  end.

(** One iteration of [for key in dir(self)]. *)
Definition register_one (d : list (string * Handler)) (ka : string * Attr)
    : list (string * Handler) :=
  let (key, thing) := ka in
  if String.prefix "handler_" key then
    match thing with
    | ACallable h =>
        (* handler_tag = key[8:] *)
        dict_set d (String.substring 8 (String.length key - 8)%nat key) h
    | AOther => d
    end
  else d.

(** [self._handlers = {}] followed by the loop over [dir(self)] (the
    attribute names, each once). *)
Definition register_handlers (attrs : list (string * Attr)) : list (string * Handler) :=
  fold_left register_one attrs [].

(** ** [Crawler.add_task] *)

(** [self._request_queue.put(task)]: [None] when the put blocks. *)
Definition add_task (s : State) (task : Request) : option State :=
  match q_put (request_queue s) (Some task) with
  | Some q => Some (with_request_queue q s)
  | None => None
  end.

(** Successive calls of [add_task]. *)
Fixpoint add_tasks (s : State) (tasks : list Request) : option State :=
  match tasks with
  | [] => Some s
  | t :: ts =>
      match add_task s t with
      | Some s' => add_tasks s' ts
      | None => None
      end
  end.

(** ** Further state predicates *)

(** The statements of [worker_network] between [active = True] and the
    [finally] clause that resets it. *)
Definition net_busy (pc : NetPc) : bool :=
  match pc with
  | NFetch _ | NRetry _ | NReject _ _ | NPutResult _ _ | NFinally => true
  | _ => false
  end.

(** The statements of [worker_parser] between [paused = True] and
    [paused = False]. *)
Definition parser_waiting (pc : ParserPc) : bool :=
  match pc with PWait | PResumed => true | _ => false end.

(** A queue holds at most [maxsize] items when [maxsize] is positive. *)
Definition within_capacity {A} (q : Queue A) : Prop :=
  0 < maxsize q -> Z.of_nat (qsize q) <= maxsize q.

(** Every fetch succeeds; the handler for tag "a" yields [req1]. *)
Definition env_yielding_handler : Env :=
  mkEnv (mkConfig 1 1 2 10) (fun _ => FOk resp0)
        [("a", fun _ _ => HIter [SYield (VRequest req1)])].

(** Parser 0 is about to iterate over the handler's result for [req0]. *)
Definition st_parser_iter : State :=
  final_state env_yielding_handler [SYield (VRequest req0)]
    [TGen; TGen; TGen; TNet 0; TNet 0; TNet 0; TNet 0; TPar 0; TPar 0].

(** [req0] queued, every fetch succeeds. *)
Definition st_ok_queued : State :=
  final_state env_no_handler [SYield (VRequest req0)] [TGen; TGen; TGen].

(** A run whose quiescence check succeeds and which returns normally. *)
Definition st_returned : State :=
  final_state env_no_handler []
    ([TGen] ++ repeat TOrch 6 ++ [TPar 0; TPar 0] ++ repeat TOrch 7 ++ [TPar 0; TPar 0]
     ++ repeat TOrch 7 ++ [TNet 0; TNet 0; TPar 0; TPar 0] ++ repeat TOrch 6).

(** What one statement can do to a queue: nothing, a [put] or a [get]. *)
Definition queue_moves {A} (q q' : Queue A) : Prop :=
  q' = q \/ (exists x, q_put q x = Some q') \/ (exists x, q_get q = Some (x, q')).

(** The run of [sched_retry_race] continued: the orchestrator clears
    [_work_allowed], unpauses the parser and leaves the loop; the
    network thread takes the request again, fails again and is about to
    put it back; the orchestrator's [finally] block fills the request
    queue ([maxsize = 1]) with its [None] first. *)
Definition sched_retry_deadlock : list Tid :=
  sched_retry_race ++
  [TOrch; TOrch; TOrch;                (* _work_allowed = False, pause cleared, resume set *)
   TPar 0; TPar 0;                     (* parser wakes, paused = False *)
   TOrch; TOrch; TOrch;                (* wait unpaused, clear resume, loop exits *)
   TNet 0; TNet 0; TNet 0;             (* get req0, active = True, fetch fails (count 2) *)
   TOrch; TOrch;                       (* None into the request queue, done *)
   TOrch; TOrch;                       (* None into the result queue, done *)
   TPar 0; TPar 0].                    (* parser takes its None and returns *)

Definition st_retry_deadlock : State :=
  final_state env_flaky [SYield (VRequest req0)] sched_retry_deadlock.

(** ** [network_try_count] bounds *)

(** A request whose count is at most [network_try_limit]. *)
Definition count_ok (L : Z) (r : Request) : Prop := network_try_count r <= L.

Definition item_ok (L : Z) (it : SeqItem) : Prop :=
  match it with SYield (VRequest r) => count_ok L r | _ => True end.

Definition task_ok (L : Z) (o : option Request) : Prop :=
  match o with Some r => count_ok L r | None => True end.

Definition result_ok (L : Z) (o : option (Request * Response)) : Prop :=
  match o with Some (r, _) => count_ok L r | None => True end.

(** The request a network thread holds: within the limit, except while
    it is being rejected, when its count is [network_try_limit + 1]. *)
Definition net_pc_ok (L : Z) (pc : NetPc) : Prop :=
  match pc with
  | NGot o => task_ok L o
  | NFetch r | NRetry r | NPutResult r _ => count_ok L r
  | NReject r _ => network_try_count r = L + 1
  | _ => True
  end.

Definition parser_pc_ok (L : Z) (pc : ParserPc) : Prop :=
  match pc with
  | PGot o => result_ok L o
  | PIter items => Forall (item_ok L) items
  | _ => True
  end.

Definition gen_ok (L : Z) (g : GenPc) : Prop :=
  match g with
  | GNext items => Forall (item_ok L) items
  | GPut r items => count_ok L r /\ Forall (item_ok L) items
  | GFinished => True
  end.

Definition call_ok (L : Z) (c : Call) : Prop :=
  match c with
  | CFetch r => count_ok L r
  | CRejected r _ _ => network_try_count r = L + 1
  | CStat _ _ _ => True
  end.

Definition counts_inv (L : Z) (s : State) : Prop :=
  Forall (task_ok L) (q_items (request_queue s)) /\
  Forall (result_ok L) (q_items (response_queue s)) /\
  Forall (fun th => net_pc_ok L (n_pc th)) (net_threads s) /\
  Forall (fun th => parser_pc_ok L (p_pc th)) (parser_threads s) /\
  gen_ok L (gen_thread s) /\
  Forall (call_ok L) (calls s).

(** * Theorems *)

(** ** Frame lemmas: what each kind of step leaves untouched *)

Lemma net_step_frame env i th s s' :
  net_step env i th s = Some s' ->
  net_finished th = false /\
  (exists th', net_threads s' = <[i := th']> (net_threads s)) /\
  parser_threads s' = parser_threads s /\ gen_thread s' = gen_thread s /\
  orch_pc s' = orch_pc s /\ orch_log s' = orch_log s /\
  (exists l, calls s' = calls s ++ l).
Proof.
  unfold net_step, set_net, push_fatal; intros H.
  destruct th as [pc a]; destruct pc; simpl in *; repeat case_match; simplify_eq/=;
    repeat split; eauto; exists []; by rewrite app_nil_r.
Qed.

Lemma parser_step_frame env i th s s' :
  parser_step env i th s = Some s' ->
  parser_finished th = false /\
  (exists th', parser_threads s' = <[i := th']> (parser_threads s)) /\
  net_threads s' = net_threads s /\ gen_thread s' = gen_thread s /\
  orch_pc s' = orch_pc s /\ orch_log s' = orch_log s /\ calls s' = calls s.
Proof.
  unfold parser_step, set_parser, push_fatal; intros H.
  destruct th as [pc a]; destruct pc; simpl in *; repeat case_match; simplify_eq/=;
    repeat split; eauto.
Qed.

Lemma gen_step_frame s s' :
  gen_step s = Some s' ->
  net_threads s' = net_threads s /\ parser_threads s' = parser_threads s /\
  orch_pc s' = orch_pc s /\ orch_log s' = orch_log s /\ calls s' = calls s /\
  response_queue s' = response_queue s.
Proof.
  unfold gen_step, push_fatal; intros H; repeat case_match; simplify_eq/=; repeat split.
Qed.

Lemma orch_step_frame env s s' :
  orch_step env s = Some s' ->
  net_threads s' = net_threads s /\ parser_threads s' = parser_threads s /\
  gen_thread s' = gen_thread s /\ calls s' = calls s.
Proof.
  unfold orch_step; intros H; repeat case_match; simplify_eq/=; repeat split.
Qed.

Lemma step_frame env t s s' :
  step env t s = Some s' ->
  length (net_threads s') = length (net_threads s) /\
  length (parser_threads s') = length (parser_threads s) /\
  (forall j th, net_threads s !! j = Some th -> net_finished th = true ->
     net_threads s' !! j = Some th) /\
  (forall j th, parser_threads s !! j = Some th -> parser_finished th = true ->
     parser_threads s' !! j = Some th) /\
  (t <> TOrch -> orch_pc s' = orch_pc s /\ orch_log s' = orch_log s) /\
  (exists l, calls s' = calls s ++ l).
Proof.
  destruct t as [| |i|i]; simpl; intros H.
  - apply orch_step_frame in H as (-> & -> & _ & ->).
    repeat split; eauto; try congruence; exists []; by rewrite app_nil_r.
  - apply gen_step_frame in H as (-> & -> & -> & -> & -> & _).
    repeat split; eauto; exists []; by rewrite app_nil_r.
  - destruct (net_threads s !! i) as [th0|] eqn:Hi; [|done].
    apply net_step_frame in H as (Hf & [th' ->] & -> & _ & -> & -> & Hc).
    repeat split; auto.
    + by rewrite length_insert.
    + intros j th Hj Hfin. destruct (decide (i = j)) as [->|Hne]; [congruence|].
      by rewrite list_lookup_insert_ne.
  - destruct (parser_threads s !! i) as [th0|] eqn:Hi; [|done].
    apply parser_step_frame in H as (Hf & [th' ->] & -> & _ & -> & -> & ->).
    repeat split; auto.
    + by rewrite length_insert.
    + intros j th Hj Hfin. destruct (decide (i = j)) as [->|Hne]; [congruence|].
      by rewrite list_lookup_insert_ne.
    + exists []; by rewrite app_nil_r.
Qed.

Lemma reachable_lengths env s :
  reachable env s ->
  length (net_threads s) = Z.to_nat (num_network_threads (config env)) /\
  length (parser_threads s) = Z.to_nat (num_parsers (config env)).
Proof.
  induction 1 as [tasks|t s s' _ IH Hs].
  - simpl. by rewrite !repeat_length.
  - apply step_frame in Hs as (-> & -> & _). exact IH.
Qed.

Lemma repeat_snoc {A} (x : A) n : repeat x n ++ [x] = repeat x (S n).
Proof. induction n as [|n IH]; simpl; [done | by rewrite IH]. Qed.

Lemma finished_below_step env t s s' i :
  step env t s = Some s' ->
  (nets_finished_below s i -> nets_finished_below s' i) /\
  (parsers_finished_below s i -> parsers_finished_below s' i).
Proof.
  intros Hs. pose proof (step_frame _ _ _ _ Hs) as (Hn & Hp & Hkn & Hkp & _).
  split.
  - intros Hb j th Hj Hl.
    destruct (net_threads s !! j) as [th0|] eqn:E.
    + pose proof (Hb j th0 Hj E) as Hf. rewrite (Hkn j th0 E Hf) in Hl. congruence.
    + apply lookup_lt_Some in Hl. apply lookup_ge_None in E. lia.
  - intros Hb j th Hj Hl.
    destruct (parser_threads s !! j) as [th0|] eqn:E.
    + pose proof (Hb j th0 Hj E) as Hf. rewrite (Hkp j th0 E Hf) in Hl. congruence.
    + apply lookup_lt_Some in Hl. apply lookup_ge_None in E. lia.
Qed.

Lemma finished_all_below s :
  workers_finished s <->
  nets_finished_below s (length (net_threads s)) /\
  parsers_finished_below s (length (parser_threads s)).
Proof.
  unfold workers_finished, nets_finished_below, parsers_finished_below.
  split; intros [Hn Hp]; split; intros j th; eauto.
  - intros Hl. eapply Hn; [|exact Hl]. by apply lookup_lt_Some in Hl.
  - intros Hl. eapply Hp; [|exact Hl]. by apply lookup_lt_Some in Hl.
Qed.

Lemma workers_finished_step env t s s' :
  step env t s = Some s' -> workers_finished s -> workers_finished s'.
Proof.
  intros Hs. pose proof (step_frame _ _ _ _ Hs) as (Hn & Hp & _).
  rewrite !finished_all_below, Hn, Hp. intros [H1 H2].
  split; eapply finished_below_step; eauto.
Qed.

Lemma orch_inv_other env t s s' :
  t <> TOrch -> step env t s = Some s' ->
  orch_inv (config env) s -> orch_inv (config env) s'.
Proof.
  intros Ht Hs. pose proof (step_frame _ _ _ _ Hs) as (_ & _ & _ & _ & Ho & _).
  destruct (Ho Ht) as [Hpc Hlog].
  pose proof (fun i => finished_below_step env t s s' i Hs) as Hb.
  pose proof (workers_finished_step env t s s' Hs) as Hw.
  unfold orch_inv. rewrite Hpc, Hlog. destruct (orch_pc s); auto.
  - intros (? & ? & ?). split; [done | split; [done|]]. by apply Hb.
  - intros (? & ? & ? & ?). split; [done | split; [done|]]. split; by apply Hb.
  - intros [? ?]; auto.
  - intros [? ?]; auto.
  - intros [? ?]; auto.
Qed.

Lemma orch_inv_orch env s s' :
  length (net_threads s) = Z.to_nat (num_network_threads (config env)) ->
  length (parser_threads s) = Z.to_nat (num_parsers (config env)) ->
  orch_step env s = Some s' ->
  orch_inv (config env) s -> orch_inv (config env) s'.
Proof.
  intros Hn Hp Hs Hinv.
  unfold orch_inv, orch_step in *.
  remember (Z.to_nat (num_network_threads (config env))) as N eqn:EN.
  remember (Z.to_nat (num_parsers (config env))) as M eqn:EM.
  destruct (orch_pc s) as [| | | | | | | | | | | | | | |p k|p k|p i|p i|p|p|r] eqn:Epc;
    try (repeat case_match; simplify_eq/=; done).
  - (* while loop exit *)
    case_match; simplify_eq/=; [done|]. rewrite Hinv, Nat.sub_diag. split; [lia | done].
  - (* raise in the while loop *)
    case_match; simplify_eq/=; [done|]. rewrite Hinv, Nat.sub_diag. split; [lia | done].
  - (* None into the request queue *)
    destruct k as [|k]; repeat case_match; simplify_eq/=.
    + destruct Hinv as [_ ->]. split; [lia|].
      by rewrite Nat.sub_0_r, Nat.sub_diag, app_nil_r.
    + destruct Hinv as [Hk ->]. split; [lia|].
      simpl. rewrite repeat_snoc. do 2 f_equal. lia.
  - (* None into the result queue *)
    destruct k as [|k]; repeat case_match; simplify_eq/=.
    + destruct Hinv as [_ ->]. split; [lia|]. unfold sent_log.
      rewrite Nat.sub_0_r. simpl. rewrite !app_nil_r. split; [done|].
      intros j th Hj; lia.
    + destruct Hinv as [Hk ->]. split; [lia|].
      simpl. rewrite <- app_assoc, repeat_snoc. do 3 f_equal. lia.
  - (* join of network thread i *)
    destruct Hinv as (Hi & Hl & Hb).
    destruct (net_threads s !! i) as [th|] eqn:Hth; [destruct (net_finished th) eqn:Hf|];
      simplify_eq; unfold with_orch; cbn [orch_pc orch_log net_threads parser_threads].
    + assert (i < length (net_threads s))%nat by (eapply lookup_lt_Some; eauto).
      split; [lia|]. split.
      * by rewrite Hl, seq_S, map_app, app_assoc.
      * intros j th' Hj Hl'. cbn [net_threads parser_threads] in Hl'.
        destruct (decide (j = i)) as [->|Hne]; [congruence|].
        apply (Hb j th'); [lia | done].
    + assert (i = Z.to_nat (num_network_threads (config env))) as ->
        by (match goal with H : _ !! _ = None |- _ => apply lookup_ge_None in H end; lia).
      split; [lia|]. rewrite Hl, app_nil_r. split; [done|]. split; [done|].
      intros j th Hj; lia.
  - (* join of parser thread i *)
    destruct Hinv as (Hi & Hl & Hbn & Hb).
    destruct (parser_threads s !! i) as [th|] eqn:Hth; [destruct (parser_finished th) eqn:Hf|];
      simplify_eq; unfold with_orch; cbn [orch_pc orch_log net_threads parser_threads].
    + assert (i < length (parser_threads s))%nat by (eapply lookup_lt_Some; eauto).
      split; [lia|]. split.
      * by rewrite Hl, seq_S, map_app, !app_assoc.
      * split; [done|].
        intros j th' Hj Hl'. cbn [net_threads parser_threads] in Hl'.
        destruct (decide (j = i)) as [->|Hne]; [congruence|].
        apply (Hb j th'); [lia | done].
    + assert (i = Z.to_nat (num_parsers (config env))) as ->
        by (match goal with H : _ !! _ = None |- _ => apply lookup_ge_None in H end; lia).
      split.
      * rewrite Hl. unfold joined_log. done.
      * apply finished_all_below. cbn [net_threads parser_threads]. rewrite Hn, Hp. done.
  - (* final get *)
    destruct Hinv as [Hl Hw].
    destruct (fatal_errors s) as [|ex rest]; simplify_eq/=.
    + by split.
    + split; [done|]. exists p. right. eexists. split; [done|]. by rewrite Hl.
  - (* shutdown_hook *)
    destruct Hinv as [Hl Hw]. simplify_eq/=. split; [done|]. exists p. left. by rewrite Hl.
Qed.

Lemma reachable_orch_inv env s : reachable env s -> orch_inv (config env) s.
Proof.
  induction 1 as [tasks|t s s' Hr IH Hs]; [done|].
  destruct t as [| |i|i].
  - pose proof (reachable_lengths _ _ Hr) as [Hn Hp]. eapply orch_inv_orch; eauto.
  - eapply orch_inv_other; [|exact Hs|done]; discriminate.
  - eapply orch_inv_other; [|exact Hs|done]; discriminate.
  - eapply orch_inv_other; [|exact Hs|done]; discriminate.
Qed.

Lemma run_sched_reachable env ts s s' :
  reachable env s -> run_sched env ts s = Some s' -> reachable env s'.
Proof.
  revert s. induction ts as [|t ts IH]; simpl; intros s Hr H; [congruence|].
  destruct (step env t s) as [s1|] eqn:E; [|done].
  eapply IH; [|exact H]. eapply reach_step; eauto.
Qed.

Lemma hook_not_in_joined_log cfg p : EHook ∉ joined_log cfg p.
Proof.
  unfold joined_log, sent_log. rewrite list_elem_of_In.
  rewrite !in_app_iff, !in_map_iff. simpl.
  intros [[[H|[]]|[H|H]]|[[? [? _]]|[? [? _]]]]; try discriminate.
  - destruct p; discriminate.
  - apply repeat_spec in H. discriminate.
  - apply repeat_spec in H. discriminate.
Qed.

Lemma run_from_reachable env tasks ts s :
  run_from env tasks ts = Some s -> reachable env s.
Proof. apply run_sched_reachable, reach_init. Qed.

(** ** C1: the quiescence check *)

(** C1 (code bug): the re-check reads the request queue size, the result
    queue size and the [active] flags one after the other.  A network
    thread that is active during the first read can put its request back
    on the request queue and clear its flag before the last read: the
    orchestrator then executes [self._work_allowed = False] while the
    request queue holds that request. *)
Theorem shutdown_with_pending_retry :
  run_from env_flaky [SYield (VRequest req0)] sched_retry_race = Some st_race /\
  orch_pc st_race = OShutdown /\ work_allowed st_race = true /\
  exists s', step env_flaky TOrch st_race = Some s' /\
    work_allowed s' = false /\
    q_items (request_queue s') = [Some (set_network_try_count req0 1)].
Proof.
  split; [vm_compute; reflexivity|].
  split; [vm_compute; reflexivity|]. split; [vm_compute; reflexivity|].
  eexists; split; [vm_compute; reflexivity|]. split; vm_compute; reflexivity.
Qed.

(** ** C3 and C8: the finally block of [run] *)

(** C3 (as stated, refuted): a fetch error pushed by a network thread
    makes [run] raise it, but the task generator thread, a daemon thread
    that is never joined, is still alive when [run] raises. *)
Lemma run_raises_with_generator_alive :
  run_from (env_broken 1) tasks01 sched_fatal_gen_alive = Some st_fatal_gen_alive /\
  orch_pc st_fatal_gen_alive = ODone (Raised (RuntimeError 1)) /\
  gen_alive (gen_thread st_fatal_gen_alive) = true.
Proof. split; [|split]; vm_compute; reflexivity. Qed.

(** C3 (amended): once the while loop has raised a fatal error [ex] taken
    from the fatal error queue, a run that raises [e] has put one [None]
    per network thread on the request queue and one per parser thread on
    the result queue, has joined every network and parser thread (all of
    them have returned), and [e] is [ex] unless the final [get] on the
    fatal error queue found another error, which is then raised. *)
Theorem fatal_error_run_teardown env s ex e :
  reachable env s -> orch_pc s = ODone (Raised e) ->
  head (orch_log s) = Some (EMainRaise ex) ->
  workers_finished s /\
  ((e = ex /\ orch_log s = joined_log (config env) (Some ex) ++ [EHook]) \/
   orch_log s = joined_log (config env) (Some ex) ++ [EFinalRaise e]).
Proof.
  intros Hr Hpc Hhd. pose proof (reachable_orch_inv _ _ Hr) as Hinv.
  unfold orch_inv in Hinv. rewrite Hpc in Hinv.
  destruct Hinv as [Hw [p [[Hres Hl] | [ex' [Hres Hl]]]]]; split; auto.
  - rewrite Hl in Hhd. destruct p as [ex0|]; simpl in *; simplify_eq. left. by split.
  - rewrite Hl in Hhd. destruct p as [ex0|]; simpl in *; simplify_eq. right. done.
Qed.

(** C8 (as stated, refuted): with two fatal errors, the final [get]
    raises the second one and [shutdown_hook] is never called. *)
Lemma hook_skipped_on_second_fatal :
  run_from (env_broken 2) tasks01 sched_two_fatal = Some st_two_fatal /\
  orch_pc st_two_fatal = ODone (Raised (RuntimeError 2)) /\
  EHook ∉ orch_log st_two_fatal.
Proof.
  split; [|split]; [vm_compute; reflexivity | vm_compute; reflexivity|].
  intros H. apply list_elem_of_In in H. vm_compute in H. intuition discriminate.
Qed.

(** C8 (amended): when [run] has finished, every network and parser
    thread has returned and been joined; [shutdown_hook] was then called
    exactly once, as the last action, unless the final [get] on the fatal
    error queue found an error, which is raised without calling it. *)
Theorem shutdown_hook_after_joins env s r :
  reachable env s -> orch_pc s = ODone r ->
  workers_finished s /\
  exists p, (EHook ∉ joined_log (config env) p) /\
    ((r = result_of p /\ orch_log s = joined_log (config env) p ++ [EHook]) \/
     (exists ex, r = Raised ex /\ orch_log s = joined_log (config env) p ++ [EFinalRaise ex])).
Proof.
  intros Hr Hpc. pose proof (reachable_orch_inv _ _ Hr) as Hinv.
  unfold orch_inv in Hinv. rewrite Hpc in Hinv.
  destruct Hinv as [Hw [p Hp]]. split; [done|]. exists p. split; [|done].
  apply hook_not_in_joined_log.
Qed.

Lemma fatal_error_run_teardown_witness :
  reachable (env_broken 1) st_fatal_gen_alive /\
  orch_pc st_fatal_gen_alive = ODone (Raised (RuntimeError 1)) /\
  head (orch_log st_fatal_gen_alive) = Some (EMainRaise (RuntimeError 1)) /\
  (workers_finished st_fatal_gen_alive /\
   ((RuntimeError 1 = RuntimeError 1 /\
     orch_log st_fatal_gen_alive =
       joined_log (config (env_broken 1)) (Some (RuntimeError 1)) ++ [EHook]) \/
    orch_log st_fatal_gen_alive =
      joined_log (config (env_broken 1)) (Some (RuntimeError 1))
        ++ [EFinalRaise (RuntimeError 1)])).
Proof.
  assert (Hr : reachable (env_broken 1) st_fatal_gen_alive)
    by (apply (run_from_reachable _ tasks01 sched_fatal_gen_alive); vm_compute; reflexivity).
  assert (Hpc : orch_pc st_fatal_gen_alive = ODone (Raised (RuntimeError 1)))
    by (vm_compute; reflexivity).
  assert (Hhd : head (orch_log st_fatal_gen_alive) = Some (EMainRaise (RuntimeError 1)))
    by (vm_compute; reflexivity).
  exact (conj Hr (conj Hpc (conj Hhd (fatal_error_run_teardown _ _ _ _ Hr Hpc Hhd)))).
Defined.

Lemma shutdown_hook_after_joins_witness :
  reachable (env_broken 2) st_two_fatal /\
  orch_pc st_two_fatal = ODone (Raised (RuntimeError 2)) /\
  (workers_finished st_two_fatal /\
   exists p, (EHook ∉ joined_log (config (env_broken 2)) p) /\
    ((Raised (RuntimeError 2) = result_of p /\
      orch_log st_two_fatal = joined_log (config (env_broken 2)) p ++ [EHook]) \/
     (exists ex, Raised (RuntimeError 2) = Raised ex /\
      orch_log st_two_fatal = joined_log (config (env_broken 2)) p ++ [EFinalRaise ex]))).
Proof.
  assert (Hr : reachable (env_broken 2) st_two_fatal)
    by (apply (run_from_reachable _ tasks01 sched_two_fatal); vm_compute; reflexivity).
  assert (Hpc : orch_pc st_two_fatal = ODone (Raised (RuntimeError 2)))
    by (vm_compute; reflexivity).
  exact (conj Hr (conj Hpc (shutdown_hook_after_joins _ _ _ Hr Hpc))).
Defined.

(** ** C2, C6: a request whose fetches keep failing *)

Lemma q_put_empty {A} m (x : A) : q_put (mkQueue m []) x = Some (mkQueue m [x]).
Proof.
  unfold q_put, q_full, qsize; simpl.
  destruct (Z.ltb_spec 0 m), (Z.leb_spec m (Z.of_nat 0)); simpl; try reflexivity; lia.
Qed.

Ltac lookup_self :=
  repeat (cbn -[Z.ltb Z.add]; first
    [ rewrite list_lookup_insert_eq by (rewrite ?length_insert; eapply lookup_lt_Some; eassumption)
    | rewrite list_insert_insert_eq
    | rewrite q_put_empty
    | match goal with H : forall r, transport _ r = _ |- _ => unfold net_step at 1; cbn -[Z.ltb Z.add]; rewrite H end ]).

Lemma net_attempt env i n s a r :
  (forall r, transport env r = FRaise (NetworkError n)) ->
  net_threads s !! i = Some (mkNet NGet a) ->
  q_items (request_queue s) = [Some r] ->
  let r' := set_network_try_count r (network_try_count r + 1) in
  exists s', run_sched env (repeat (TNet i) 5) s = Some s' /\
    net_threads s' = <[i := mkNet NGet false]> (net_threads s) /\
    maxsize (request_queue s') = maxsize (request_queue s) /\
    if network_try_limit (config env) <? network_try_count r'
    then q_items (request_queue s') = [] /\
         calls s' = calls s ++ [CFetch r; CStat "network_try_limit" (url r') (NetworkError n);
                                CRejected r' None (NetworkError n)]
    else q_items (request_queue s') = [Some r'] /\ calls s' = calls s ++ [CFetch r].
Proof.
  intros Htr Hi Hq r'. destruct s as [[m items] ? ? ? ? ? ? nts ? ? ? cs]; simpl in *; subst items.
  rewrite Hi. lookup_self. cbn -[Z.ltb Z.add]. unfold r' in *. cbn -[Z.ltb Z.add].
  destruct (network_try_limit (config env) <? network_try_count r + 1) eqn:E;
    lookup_self; unfold q_full; cbn -[Z.ltb Z.add].
  - eexists; split; [reflexivity|]. simpl. rewrite !list_insert_insert_eq.
    split; [done|]. split; [done|]. split; [done|]. by rewrite <- app_assoc.
  - eexists; split; [reflexivity|]. simpl. rewrite !list_insert_insert_eq.
    split; [done|]. split; [done|]. split; done.
Qed.

Lemma run_sched_app env ts1 ts2 s :
  run_sched env (ts1 ++ ts2) s =
  match run_sched env ts1 s with Some s1 => run_sched env ts2 s1 | None => None end.
Proof.
  revert s. induction ts1 as [|t ts1 IH]; intros s; simpl; [done|].
  destruct (step env t s); [apply IH | done].
Qed.

Lemma fetches_cons r c m :
  map (fun j => CFetch (set_network_try_count r (c + Z.of_nat j))) (seq 0 (S m)) =
  CFetch (set_network_try_count r c)
    :: map (fun j => CFetch (set_network_try_count r (c + 1 + Z.of_nat j))) (seq 0 m).
Proof.
  cbn [seq map]. replace (c + Z.of_nat 0) with c by lia. f_equal.
  rewrite <- seq_shift, map_map. apply map_ext. intros j. do 2 f_equal. lia.
Qed.

Lemma net_retry_loop env i n r :
  (forall r, transport env r = FRaise (NetworkError n)) ->
  forall k c s a,
  0 <= c -> c + Z.of_nat k = network_try_limit (config env) ->
  net_threads s !! i = Some (mkNet NGet a) ->
  q_items (request_queue s) = [Some (set_network_try_count r c)] ->
  exists s', run_sched env (repeat (TNet i) (5 * S k)) s = Some s' /\
    net_threads s' = <[i := mkNet NGet false]> (net_threads s) /\
    q_items (request_queue s') = [] /\
    calls s' = calls s
      ++ map (fun j => CFetch (set_network_try_count r (c + Z.of_nat j))) (seq 0 (S k))
      ++ [CStat "network_try_limit" (url r) (NetworkError n);
          CRejected (set_network_try_count r (network_try_limit (config env) + 1)) None
                    (NetworkError n)].
Proof.
  intros Htr k. induction k as [|k IH]; intros c s a Hc Hk Hi Hq.
  - destruct (net_attempt env i n s a _ Htr Hi Hq) as (s' & Hrun & Hn & _ & Hif).
    simpl in Hif. rewrite <- Hk in Hif.
    replace (c + Z.of_nat 0 <? c + 1) with true in Hif by (symmetry; apply Z.ltb_lt; lia).
    destruct Hif as [Hq' Hcalls]. exists s'. split; [exact Hrun|]. split; [done|].
    split; [done|]. rewrite Hcalls, <- Hk. cbn [map seq app].
    replace (c + Z.of_nat 0) with c by lia. reflexivity.
  - destruct (net_attempt env i n s a _ Htr Hi Hq) as (s1 & Hrun1 & Hn1 & _ & Hif).
    simpl in Hif.
    replace (network_try_limit (config env) <? c + 1) with false in Hif
      by (symmetry; apply Z.ltb_ge; lia).
    destruct Hif as [Hq1 Hcalls1].
    assert (Hi1 : net_threads s1 !! i = Some (mkNet NGet false)).
    { rewrite Hn1. apply list_lookup_insert_eq. eapply lookup_lt_Some; eauto. }
    destruct (IH (c + 1) s1 false ltac:(lia) ltac:(lia) Hi1 Hq1) as (s' & Hrun & Hn & Hq' & Hcalls).
    exists s'. split.
    + replace (5 * S (S k))%nat with (5 + 5 * S k)%nat by lia.
      rewrite repeat_app, run_sched_app, Hrun1. exact Hrun.
    + split; [by rewrite Hn, Hn1, list_insert_insert_eq|]. split; [done|].
      rewrite Hcalls, Hcalls1, <- !app_assoc. f_equal.
      rewrite (fetches_cons r c (S k)). reflexivity.
Qed.

(** [worker_network] running alone: a request with
    [network_try_count = 0] whose fetches all raise a transient
    [NetworkError], taken by network thread [i] from a request queue that
    holds only it, with no other thread scheduled meanwhile:
    [network_try_limit + 1] calls of [process_request] (with counts
    0, 1, ..., limit), then one [stat.store] and one call
    [process_rejected_request(req, None, ex)]; afterwards the request
    queue is empty and the thread waits for the next request. *)
Theorem transient_failures_then_one_rejection env i n s a r :
  (forall r, transport env r = FRaise (NetworkError n)) ->
  0 <= network_try_limit (config env) ->
  network_try_count r = 0 ->
  net_threads s !! i = Some (mkNet NGet a) ->
  q_items (request_queue s) = [Some r] ->
  let L := Z.to_nat (network_try_limit (config env)) in
  exists s', run_sched env (repeat (TNet i) (5 * S L)) s = Some s' /\
    calls s' = calls s
      ++ map (fun j => CFetch (set_network_try_count r (Z.of_nat j))) (seq 0 (S L))
      ++ [CStat "network_try_limit" (url r) (NetworkError n);
          CRejected (set_network_try_count r (Z.of_nat (S L))) None (NetworkError n)] /\
    q_items (request_queue s') = [] /\
    step env (TNet i) s' = None.
Proof.
  intros Htr HL Hc Hi Hq L.
  destruct r as [id u tg cnt]; simpl in Hc; subst cnt.
  destruct (net_retry_loop env i n (mkRequest id u tg 0) Htr L 0 s a ltac:(lia))
    as (s' & Hrun & Hn & Hq' & Hcalls).
  { unfold L. rewrite Z2Nat.id; lia. }
  { exact Hi. }
  { exact Hq. }
  exists s'. split; [exact Hrun|]. split; [|split; [exact Hq'|]].
  - rewrite Hcalls. unfold L. rewrite Nat2Z.inj_succ, Z2Nat.id by lia.
    replace (network_try_limit (config env) + 1)
      with (Z.succ (network_try_limit (config env))) by lia.
    reflexivity.
  - simpl. rewrite Hn, list_lookup_insert_eq by (eapply lookup_lt_Some; eauto).
    unfold net_step. cbn. unfold q_get. by rewrite Hq'.
Qed.

Lemma transient_failures_then_one_rejection_witness :
  (forall r, transport env_flaky r = FRaise (NetworkError 7)) /\
  0 <= network_try_limit (config env_flaky) /\
  network_try_count req0 = 0 /\
  net_threads st_req0_queued !! 0%nat = Some (mkNet NGet false) /\
  q_items (request_queue st_req0_queued) = [Some req0] /\
  exists s', run_sched env_flaky (repeat (TNet 0) (5 * S 2)) st_req0_queued = Some s' /\
    calls s' = calls st_req0_queued
      ++ map (fun j => CFetch (set_network_try_count req0 (Z.of_nat j))) (seq 0 3)
      ++ [CStat "network_try_limit" (url req0) (NetworkError 7);
          CRejected (set_network_try_count req0 (Z.of_nat 3)) None (NetworkError 7)] /\
    q_items (request_queue s') = [] /\
    step env_flaky (TNet 0) s' = None.
Proof.
  assert (Htr : forall r, transport env_flaky r = FRaise (NetworkError 7)) by reflexivity.
  assert (HL : 0 <= network_try_limit (config env_flaky)) by (simpl; lia).
  assert (Hc : network_try_count req0 = 0) by reflexivity.
  assert (Hi : net_threads st_req0_queued !! 0%nat = Some (mkNet NGet false))
    by (vm_compute; reflexivity).
  assert (Hq : q_items (request_queue st_req0_queued) = [Some req0])
    by (vm_compute; reflexivity).
  exact (conj Htr (conj HL (conj Hc (conj Hi (conj Hq
    (transient_failures_then_one_rejection env_flaky 0 7 st_req0_queued false req0
       Htr HL Hc Hi Hq)))))).
Defined.

(** C2 (code bug): in a run with [network_try_limit = 2] where the
    transport always raises a transient [NetworkError] for [req0], the
    quiescence check of C1 clears [_work_allowed] while [req0] waits for
    its second attempt.  The network thread fetches it a second time
    (count 1, then 2, not over the limit) and goes to put it back, but
    the [finally] block of [run] has already filled the request queue
    ([maxsize = 1]) with its [None]: the network thread blocks in
    [put], the orchestrator blocks joining it, and no thread of the run
    can take another step.  The request is fetched twice, never three
    times, the rejection hook is never called, and [run] never returns. *)
Theorem retry_deadlock_after_shutdown :
  run_from env_flaky [SYield (VRequest req0)] sched_retry_deadlock = Some st_retry_deadlock /\
  network_try_limit (config env_flaky) = 2 /\
  work_allowed st_retry_deadlock = false /\
  calls st_retry_deadlock = [CFetch req0; CFetch (set_network_try_count req0 1)] /\
  request_queue st_retry_deadlock = mkQueue 1 [None] /\
  net_threads st_retry_deadlock = [mkNet (NRetry (set_network_try_count req0 2)) true] /\
  orch_pc st_retry_deadlock = OJoinNet None 0 /\
  (forall t, step env_flaky t st_retry_deadlock = None).
Proof.
  split; [vm_compute; reflexivity|].
  do 6 (split; [vm_compute; reflexivity|]).
  intros [| |[|i]|[|i]]; vm_compute; reflexivity.
Qed.


(** ** C7: results come only from successful fetches *)

Lemma q_put_items {A} (q q' : Queue A) x :
  q_put q x = Some q' -> q_items q' = q_items q ++ [x].
Proof. unfold q_put. case_match; intros; simplify_eq/=. done. Qed.

Lemma q_get_items {A} (q q' : Queue A) x :
  q_get q = Some (x, q') -> q_items q = x :: q_items q'.
Proof. unfold q_get. case_match; intros; simplify_eq/=; done. Qed.

Lemma orch_step_rq env s s' :
  orch_step env s = Some s' ->
  q_items (response_queue s') = q_items (response_queue s) \/
  q_items (response_queue s') = q_items (response_queue s) ++ [None].
Proof.
  unfold orch_step; intros H; repeat case_match; simplify_eq/=; auto.
  all: right; by apply q_put_items.
Qed.

Lemma parser_step_rq env i th s s' :
  parser_step env i th s = Some s' ->
  forall x, x ∈ q_items (response_queue s') -> x ∈ q_items (response_queue s).
Proof.
  unfold parser_step, set_parser, push_fatal; intros H x Hx.
  destruct th as [pc a]; destruct pc; simpl in *; repeat case_match; simplify_eq/=; auto.
  erewrite q_get_items by eassumption. by apply elem_of_cons; right.
Qed.

Lemma net_step_results env i th s s' :
  net_step env i th s = Some s' ->
  (forall x, x ∈ q_items (response_queue s') ->
     x ∈ q_items (response_queue s) \/
     exists r resp, x = Some (r, resp) /\ n_pc th = NPutResult r resp) /\
  exists th', net_threads s' = <[i := th']> (net_threads s) /\
    forall r resp, n_pc th' = NPutResult r resp ->
      transport env r = FOk resp /\ CFetch r ∈ calls s'.
Proof.
  unfold net_step, set_net, push_fatal; intros H.
  destruct th as [pc a]; destruct pc; simpl in *; repeat case_match; simplify_eq/=.
  all: split; [intros x Hx; auto|].
  all: try (eexists; split; [reflexivity|]; intros r' resp' Hpc; simpl in Hpc;
            simplify_eq; split; [done|]; apply elem_of_app; right; by apply list_elem_of_singleton).
  all: try (eexists; split; [reflexivity|]; intros r' resp' Hpc; simpl in Hpc; discriminate).
  all: try (left; erewrite q_get_items in * by eassumption; by apply elem_of_cons; right).
  erewrite q_put_items in Hx by eassumption.
  apply elem_of_app in Hx as [Hx|Hx]; [by left|].
  apply list_elem_of_singleton in Hx. right. eauto.
Qed.

Lemma calls_step_mono env t s s' c :
  step env t s = Some s' -> c ∈ calls s -> c ∈ calls s'.
Proof.
  intros Hs Hc. apply step_frame in Hs as (_ & _ & _ & _ & _ & [l ->]).
  apply elem_of_app. by left.
Qed.

Lemma results_from_fetches_step env t s s' :
  results_from_fetches env s -> step env t s = Some s' -> results_from_fetches env s'.
Proof.
  intros [Hrq Hnet] Hs.
  pose proof (fun c => calls_step_mono env t s s' c Hs) as Hmono.
  destruct t as [| |i|i]; simpl in Hs.
  - pose proof (orch_step_frame _ _ _ Hs) as (Hn & _ & _ & Hc).
    apply orch_step_rq in Hs. split.
    + intros r resp Hx. destruct Hs as [Hq|Hq]; rewrite Hq in Hx.
      * destruct (Hrq _ _ Hx). auto.
      * apply elem_of_app in Hx as [Hx|Hx].
        -- destruct (Hrq _ _ Hx). auto.
        -- apply list_elem_of_singleton in Hx. discriminate.
    + intros j th r resp Hj Hpc. rewrite Hn in Hj. destruct (Hnet _ _ _ _ Hj Hpc). auto.
  - pose proof (gen_step_frame _ _ Hs) as (Hn & _ & _ & _ & _ & Hq). split.
    + intros r resp Hx. rewrite Hq in Hx. destruct (Hrq _ _ Hx). auto.
    + intros j th r resp Hj Hpc. rewrite Hn in Hj. destruct (Hnet _ _ _ _ Hj Hpc). auto.
  - destruct (net_threads s !! i) as [th0|] eqn:Hi; [|done].
    apply net_step_results in Hs as [Hq [th' [Hn Hth']]]. split.
    + intros r resp Hx. destruct (Hq _ Hx) as [Hx'|(r1 & resp1 & Heq & Hpc)].
      * destruct (Hrq _ _ Hx'). auto.
      * injection Heq as <- <-. destruct (Hnet _ _ _ _ Hi Hpc). auto.
    + intros j th r resp Hj Hpc. rewrite Hn in Hj.
      apply list_lookup_insert_Some in Hj as [(_ & <- & _)|(_ & Hj)].
      * by apply Hth'.
      * destruct (Hnet _ _ _ _ Hj Hpc). auto.
  - destruct (parser_threads s !! i) as [th0|] eqn:Hi; [|done].
    pose proof (parser_step_frame _ _ _ _ _ Hs) as (_ & _ & Hn & _ & _ & _ & Hc).
    pose proof (parser_step_rq _ _ _ _ _ Hs) as Hq. split.
    + intros r resp Hx. destruct (Hrq _ _ (Hq _ Hx)). auto.
    + intros j th r resp Hj Hpc. rewrite Hn in Hj. destruct (Hnet _ _ _ _ Hj Hpc). auto.
Qed.

(** C7: in every reachable state, each [(req, resp)] pair on the result
    queue, and each pair a network thread is about to put there, comes
    from a call [process_request(req)] that has been made and that
    returns [resp] (the success path); a request whose fetch raises is
    never paired with a response. *)
Theorem results_only_from_successful_fetches env s :
  reachable env s -> results_from_fetches env s.
Proof.
  induction 1 as [tasks|t s s' _ IH Hs].
  - split.
    + intros r resp Hx. simpl in Hx. by apply elem_of_nil in Hx.
    + intros j th r resp Hj Hpc. simpl in Hj.
      apply list_elem_of_lookup_2, list_elem_of_In, repeat_spec in Hj.
      subst th. discriminate.
  - eapply results_from_fetches_step; eauto.
Qed.

Lemma results_only_from_successful_fetches_witness :
  reachable env_flaky st_req0_fetching /\ results_from_fetches env_flaky st_req0_fetching.
Proof.
  assert (Hr : reachable env_flaky st_req0_fetching).
  { apply (run_from_reachable env_flaky [SYield (VRequest req0)]
             [TGen; TGen; TGen; TNet 0; TNet 0]).
    vm_compute. reflexivity. }
  exact (conj Hr (results_only_from_successful_fetches env_flaky _ Hr)).
Defined.

(** ** C4: errors in [worker_parser] *)

(** C4 (as stated, refuted): no handler is registered for tag "a"; the
    lookup [self._handlers[req.tag]] raises [KeyError] outside the [try],
    the parser thread dies and nothing reaches the fatal error queue. *)
Lemma missing_handler_kills_parser :
  run_from env_no_handler [SYield (VRequest req0)] sched_missing_handler
    = Some st_missing_handler /\
  parser_threads st_missing_handler !! 0%nat = Some (mkParser (PCrashed (KeyError "a")) false) /\
  fatal_errors st_missing_handler = [] /\
  step env_no_handler (TPar 0) st_missing_handler = None.
Proof. vm_compute. repeat split. Qed.

(** C4 (amended): an error raised by the handler call, by the iteration
    of its result or by the [assert] is put on the fatal error queue and
    the parser goes back to [get]; a tag with no registered handler makes
    the lookup raise [KeyError] outside the [try]: the parser thread ends,
    nothing is put on the fatal error queue. *)
Theorem parser_errors_captured env i s paused pc :
  parser_threads s !! i = Some (mkParser pc paused) ->
  (forall ex, parser_try_error env pc = Some ex ->
     exists s', step env (TPar i) s = Some s' /\
       fatal_errors s' = fatal_errors s ++ [ex] /\
       parser_threads s' !! i = Some (mkParser PGet paused) /\
       request_queue s' = request_queue s /\ response_queue s' = response_queue s) /\
  (forall req resp, pc = PGot (Some (req, resp)) ->
     lookup_handler (handlers env) (tag req) = None ->
     exists s', step env (TPar i) s = Some s' /\
       fatal_errors s' = fatal_errors s /\
       parser_threads s' !! i = Some (mkParser (PCrashed (KeyError (tag req))) paused) /\
       step env (TPar i) s' = None).
Proof.
  intros Hi.
  assert (Hlt : (i < length (parser_threads s))%nat) by (eapply lookup_lt_Some; eauto).
  split.
  - intros ex Hex. simpl. rewrite Hi. unfold parser_try_error in Hex.
    unfold parser_step, push_fatal, set_parser; simpl.
    repeat case_match; simplify_eq/=; eexists; (split; [reflexivity|]); simpl;
      rewrite list_lookup_insert_eq by done; auto.
  - intros req resp -> Hl. simpl. rewrite Hi. unfold parser_step, set_parser; simpl.
    rewrite Hl. eexists; (split; [reflexivity|]); simpl.
    rewrite !list_lookup_insert_eq by done. auto.
Qed.

Lemma parser_errors_captured_witness :
  parser_threads st_parser_got !! 0%nat = Some (mkParser (PGot (Some (req0, resp0))) false) /\
  parser_try_error env_raising_handler (PGot (Some (req0, resp0))) = Some (RuntimeError 3) /\
  exists s', step env_raising_handler (TPar 0) st_parser_got = Some s' /\
    fatal_errors s' = fatal_errors st_parser_got ++ [RuntimeError 3] /\
    parser_threads s' !! 0%nat = Some (mkParser PGet false) /\
    request_queue s' = request_queue st_parser_got /\
    response_queue s' = response_queue st_parser_got.
Proof.
  assert (Hi : parser_threads st_parser_got !! 0%nat
               = Some (mkParser (PGot (Some (req0, resp0))) false))
    by (vm_compute; reflexivity).
  assert (He : parser_try_error env_raising_handler (PGot (Some (req0, resp0)))
               = Some (RuntimeError 3)) by reflexivity.
  exact (conj Hi (conj He
    (proj1 (parser_errors_captured env_raising_handler 0 st_parser_got false _ Hi) _ He))).
Defined.

(** ** C5: the pause test of [worker_parser] *)

(** C5 (code bug): [if self._pause_event:] tests the truth value of the
    [Event] object, which is always true.  In any crawler, right after
    [run()] starts, parser 0 finds the result queue empty, marks itself
    paused although [pause_event] is clear, and blocks on
    [resume_event.wait()]. *)
Theorem parser_pauses_without_pause_request nnt ntl ttl cpu tr hs tasks :
  let env := mkEnv (make_config nnt ntl ttl cpu) tr hs in
  exists s', run_sched env [TPar 0; TPar 0] (init_state (config env) tasks) = Some s' /\
    is_set (pause_event s') = false /\
    parser_threads s' !! 0%nat = Some (mkParser PWait true) /\
    step env (TPar 0) s' = None.
Proof.
  intros env. unfold env, make_config, init_state; simpl.
  assert (Hp : Z.to_nat (Z.max 1 (cpu / 2)) = S (Z.to_nat (Z.max 1 (cpu / 2)) - 1)) by lia.
  rewrite Hp. simpl. eexists. split; [reflexivity|]. simpl. auto.
Qed.

(** ** C9: queue sizes *)

(** C9 (as stated, refuted): with [num_network_threads = 0] the request
    queue is [Queue(maxsize=0)], which is unbounded. *)
Lemma zero_network_threads_unbounded_queue :
  num_network_threads (make_config 0 10 10 8) = 0 /\
  q_capacity (request_queue (init_state (make_config 0 10 10 8) [])) = None.
Proof. split; reflexivity. Qed.

(** C9 (amended): the request queue holds at most [num_network_threads]
    items when that number is positive and is unbounded otherwise; the
    result queue holds at most [num_parsers = max(1, cpu_count // 2)]
    items, which is always positive. *)
Theorem queue_capacities nnt ntl ttl cpu tasks :
  let cfg := make_config nnt ntl ttl cpu in
  q_capacity (request_queue (init_state cfg tasks)) =
    (if 0 <? nnt then Some nnt else None) /\
  num_parsers cfg = Z.max 1 (cpu / 2) /\
  q_capacity (response_queue (init_state cfg tasks)) = Some (Z.max 1 (cpu / 2)).
Proof.
  intros cfg. unfold cfg, make_config, q_capacity; simpl. split; [done|]. split; [done|].
  destruct (Z.ltb_spec 0 (Z.max 1 (cpu / 2))); [done|lia].
Qed.

(** ** C10: non-[Request] tasks *)

Lemma gen_done_inv_step env t s s' :
  gen_done_inv s -> step env t s = Some s' -> gen_done_inv s'.
Proof.
  unfold gen_done_inv. intros Hinv Hs Hpre.
  destruct t as [| |i|i]; simpl in Hs.
  - unfold orch_step in Hs. repeat case_match; simplify_eq/=; try done;
      repeat match goal with H : orch_pc s = _ |- _ => rewrite H in * end;
      repeat match goal with H : work_allowed s = _ |- _ => rewrite H in * end;
      simpl in *; rewrite ?orb_true_r in *; auto;
      unfold gen_alive in *; case_match; congruence.
  - assert (Hw : work_allowed s' = work_allowed s /\ orch_pc s' = orch_pc s).
    { unfold gen_step, push_fatal in Hs.
      destruct (gen_thread s) as [[|[[r|v]|ex] rest]|r rest|];
        try destruct (negb (work_allowed s)); try destruct (q_put _ _);
        simplify_eq/=; auto. }
    destruct Hw as [Hw Ho]. rewrite Hw, Ho in Hpre.
    unfold gen_step in Hs. rewrite (Hinv Hpre) in Hs. discriminate.
  - destruct (net_threads s !! i) as [th|]; [|done].
    unfold net_step, set_net, push_fatal in Hs.
    destruct th as [pc a]; destruct pc; simpl in *; repeat case_match; simplify_eq/=; auto.
  - destruct (parser_threads s !! i) as [th|]; [|done].
    unfold parser_step, set_parser, push_fatal in Hs.
    destruct th as [pc a]; destruct pc; simpl in *; repeat case_match; simplify_eq/=; auto.
Qed.

Lemma reachable_gen_done env s : reachable env s -> gen_done_inv s.
Proof.
  induction 1 as [tasks|t s s' _ IH Hs].
  - unfold gen_done_inv. simpl. discriminate.
  - eapply gen_done_inv_step; eauto.
Qed.

(** C10: when the task sequence yields a value [v] that is not a
    [Request], the generator thread raises [UnknownTaskType], which is
    put on the fatal error queue; the request queue is left as it is and
    the generator is finished: it pulls no later value. *)
Theorem non_request_task_is_fatal env s v rest :
  reachable env s -> gen_thread s = GNext (SYield (VOther v) :: rest) ->
  exists s', step env TGen s = Some s' /\
    fatal_errors s' = fatal_errors s ++ [UnknownTaskType v] /\
    request_queue s' = request_queue s /\
    gen_thread s' = GFinished /\
    step env TGen s' = None.
Proof.
  intros Hr Hg. pose proof (reachable_gen_done _ _ Hr) as Hinv.
  assert (Hw : work_allowed s = true).
  { destruct (work_allowed s) eqn:Hw; [done|].
    unfold gen_done_inv in Hinv. rewrite Hw, Hg in Hinv. discriminate (Hinv eq_refl). }
  simpl. unfold gen_step. rewrite Hg, Hw. simpl.
  eexists. repeat split.
Qed.

Lemma non_request_task_is_fatal_witness :
  reachable env_flaky (init_state (config env_flaky) [SYield (VOther 5)]) /\
  gen_thread (init_state (config env_flaky) [SYield (VOther 5)]) = GNext [SYield (VOther 5)] /\
  exists s', step env_flaky TGen (init_state (config env_flaky) [SYield (VOther 5)]) = Some s' /\
    fatal_errors s' = fatal_errors (init_state (config env_flaky) [SYield (VOther 5)])
                      ++ [UnknownTaskType 5] /\
    request_queue s' = request_queue (init_state (config env_flaky) [SYield (VOther 5)]) /\
    gen_thread s' = GFinished /\
    step env_flaky TGen s' = None.
Proof.
  assert (Hr : reachable env_flaky (init_state (config env_flaky) [SYield (VOther 5)]))
    by apply reach_init.
  assert (Hg : gen_thread (init_state (config env_flaky) [SYield (VOther 5)])
               = GNext [SYield (VOther 5)]) by reflexivity.
  exact (conj Hr (conj Hg (non_request_task_is_fatal env_flaky _ 5 [] Hr Hg))).
Defined.

(** * Further properties of [Crawler] *)

(** ** [register_handlers] *)

Lemma lookup_dict_set d k v t :
  lookup_handler (dict_set d k v) t = if String.eqb t k then Some v else lookup_handler d t.
Proof.
  induction d as [|[k' v'] d IH]; simpl; [done|].
  destruct (String.eqb_spec k k') as [->|Hne]; simpl.
  - by destruct (String.eqb t k').
  - rewrite IH. destruct (String.eqb_spec t k') as [->|]; [|done].
    destruct (String.eqb_spec k' k); congruence.
Qed.

Lemma substring_0_length (t : string) : String.substring 0 (String.length t) t = t.
Proof. induction t as [|c t IH]; simpl; [done|]. by rewrite IH. Qed.

Lemma handler_key_tag t :
  String.prefix "handler_" (String.append "handler_" t) = true /\
  String.substring 8 (String.length (String.append "handler_" t) - 8)%nat
    (String.append "handler_" t) = t.
Proof.
  split; [by induction t|]. simpl. rewrite Nat.sub_0_r. apply substring_0_length.
Qed.

Lemma handler_key_prefix key :
  String.prefix "handler_" key = true ->
  key = String.append "handler_" (String.substring 8 (String.length key - 8)%nat key).
Proof.
  intros H.
  apply String.prefix_correct in H. simpl in H.
  do 8 (destruct key as [|? key]; [discriminate|]).
  simpl in H. injection H as -> -> -> -> -> -> -> ->.
  simpl. rewrite Nat.sub_0_r, substring_0_length. reflexivity.
Qed.

Lemma lookup_register_one d k a t :
  lookup_handler (register_one d (k, a)) t =
  match a with
  | ACallable h => if String.eqb k (String.append "handler_" t) then Some h
                   else lookup_handler d t
  | AOther => lookup_handler d t
  end.
Proof.
  unfold register_one. destruct (String.prefix "handler_" k) eqn:P.
  - destruct a as [h|]; [|done]. rewrite lookup_dict_set.
    pose proof (handler_key_prefix k P) as Hk.
    set (tag := String.substring 8 (String.length k - 8)%nat k) in *.
    destruct (String.eqb_spec t tag) as [Ht|Hne];
      destruct (String.eqb_spec k (String.append "handler_" t)) as [Hk'|Hk']; try done.
    + exfalso. apply Hk'. by rewrite Hk, Ht.
    + exfalso. apply Hne. rewrite Hk in Hk'. cbn [String.append] in Hk'. injection Hk' as Hk'. by symmetry.
  - destruct a as [h|]; [|done].
    destruct (String.eqb_spec k (String.append "handler_" t)) as [->|]; [|done].
    by rewrite (proj1 (handler_key_tag t)) in P.
Qed.

Lemma register_fold_spec attrs d t :
  NoDup (map fst attrs) ->
  (forall h, (String.append "handler_" t, ACallable h) ∈ attrs ->
     lookup_handler (fold_left register_one attrs d) t = Some h) /\
  ((forall h, (String.append "handler_" t, ACallable h) ∉ attrs) ->
     lookup_handler (fold_left register_one attrs d) t = lookup_handler d t).
Proof.
  revert d. induction attrs as [|[k a] attrs IH]; intros d Hnd; cbn [fold_left map] in *.
  - split; [|done]. intros h Hin. by apply elem_of_nil in Hin.
  - apply NoDup_cons in Hnd as [Hk Hnd].
    destruct (IH (register_one d (k, a)) Hnd) as [IH1 IH2]. split.
    + intros h Hin. apply elem_of_cons in Hin as [Heq|Hin]; [|by apply IH1].
      injection Heq as <- <-. rewrite IH2.
      * rewrite lookup_register_one. by rewrite String.eqb_refl.
      * intros h' Hin'. apply Hk. apply list_elem_of_In, in_map_iff.
        exists (String.append "handler_" t, ACallable h'). split; [done|].
        by apply list_elem_of_In.
    + intros Hnone. rewrite IH2.
      * rewrite lookup_register_one. destruct a as [h|]; [|done].
        destruct (String.eqb_spec k (String.append "handler_" t)) as [->|]; [|done].
        exfalso. apply (Hnone h). by apply elem_of_cons; left.
      * intros h Hin. apply (Hnone h). by apply elem_of_cons; right.
Qed.

(** [register_handlers] over the attribute names of [dir(self)] (each
    name once): the tag [t] is served by the callable attribute named
    [handler_t] if there is one; a tag with no such callable attribute
    has no handler (non-callable attributes and other names are
    ignored). *)
Theorem register_handlers_lookup attrs :
  NoDup (map fst attrs) ->
  forall t,
    (forall h, (String.append "handler_" t, ACallable h) ∈ attrs ->
       lookup_handler (register_handlers attrs) t = Some h) /\
    ((forall h, (String.append "handler_" t, ACallable h) ∉ attrs) ->
       lookup_handler (register_handlers attrs) t = None).
Proof. intros Hnd t. apply (register_fold_spec attrs [] t Hnd). Qed.

Lemma register_handlers_lookup_witness :
  let attrs := [("handler_a", ACallable (fun _ _ => HNone)); ("handler_b", AOther);
                ("run", ACallable (fun _ _ => HNone))] in
  NoDup (map fst attrs) /\
  forall t,
    (forall h, (String.append "handler_" t, ACallable h) ∈ attrs ->
       lookup_handler (register_handlers attrs) t = Some h) /\
    ((forall h, (String.append "handler_" t, ACallable h) ∉ attrs) ->
       lookup_handler (register_handlers attrs) t = None).
Proof.
  intros attrs.
  assert (Hnd : NoDup (map fst attrs)).
  { apply NoDup_ListNoDup. repeat constructor; simpl; intuition discriminate. }
  exact (conj Hnd (register_handlers_lookup attrs Hnd)).
Defined.

(** ** [add_task] *)

Lemma add_tasks_spec s ts :
  within_capacity (request_queue s) ->
  add_tasks s ts =
    if (0 <? maxsize (request_queue s)) &&
       (maxsize (request_queue s) <? Z.of_nat (qsize (request_queue s) + length ts))
    then None
    else Some (with_request_queue
                 (mkQueue (maxsize (request_queue s)) (q_items (request_queue s) ++ map Some ts)) s).
Proof.
  revert s. induction ts as [|t ts IH]; intros s Hw; simpl.
  - unfold within_capacity in Hw.
    destruct s as [[m l] ? ? ? ? ? ? ? ? ? ? ?]; unfold qsize in *; simpl in *.
    rewrite Nat.add_0_r, app_nil_r.
    destruct (Z.ltb_spec 0 m), (Z.ltb_spec m (Z.of_nat (length l))); simpl; try lia; done.
  - unfold add_task, q_put, q_full, qsize. unfold within_capacity, qsize in Hw.
    destruct (Z.ltb_spec 0 (maxsize (request_queue s))) as [Hm|Hm];
      destruct (Z.leb_spec (maxsize (request_queue s)) (Z.of_nat (length (q_items (request_queue s)))));
      simpl.
    + destruct (Z.ltb_spec (maxsize (request_queue s))
                  (Z.of_nat (length (q_items (request_queue s)) + S (length ts)))); [done|lia].
    + rewrite IH; unfold within_capacity, qsize; simpl.
      * rewrite length_app, <- app_assoc. simpl. rewrite <- Nat.add_assoc. simpl.
        rewrite (proj2 (Z.ltb_lt _ _) Hm). simpl. destruct (_ <? _); done.
      * rewrite length_app. simpl. lia.
    + rewrite IH; unfold within_capacity, qsize; simpl; [|lia].
      destruct (Z.ltb_spec 0 (maxsize (request_queue s))); [lia|]. simpl.
      by rewrite <- app_assoc.
    + rewrite IH; unfold within_capacity, qsize; simpl; [|lia].
      destruct (Z.ltb_spec 0 (maxsize (request_queue s))); [lia|]. simpl.
      by rewrite <- app_assoc.
Qed.

(** Before [run()], nobody takes from the request queue: successive
    [add_task] calls on a new crawler return as long as at most
    [num_network_threads] requests have been added (any number when
    [num_network_threads <= 0]), and the queue then holds them in order;
    one call more blocks forever. *)
Theorem add_tasks_before_run cfg tasks rs :
  add_tasks (init_state cfg tasks) rs =
    if (0 <? num_network_threads cfg) && (num_network_threads cfg <? Z.of_nat (length rs))
    then None
    else Some (with_request_queue (mkQueue (num_network_threads cfg) (map Some rs))
                 (init_state cfg tasks)).
Proof.
  rewrite add_tasks_spec; [done|]. unfold within_capacity, qsize. simpl. lia.
Qed.

(** ** The [active] and [paused] flags *)

Lemma net_step_busy env i th s s' :
  net_step env i th s = Some s' -> n_active th = net_busy (n_pc th) ->
  exists th', net_threads s' = <[i := th']> (net_threads s) /\
              n_active th' = net_busy (n_pc th').
Proof.
  unfold net_step, set_net, push_fatal; intros H Hb.
  destruct th as [pc a]; destruct pc; simpl in *; repeat case_match; simplify_eq/=;
    eexists; (split; [reflexivity|]); simpl; auto.
Qed.

Lemma parser_step_waiting env i th s s' :
  parser_step env i th s = Some s' -> p_paused th = parser_waiting (p_pc th) ->
  exists th', parser_threads s' = <[i := th']> (parser_threads s) /\
              p_paused th' = parser_waiting (p_pc th').
Proof.
  unfold parser_step, set_parser, push_fatal; intros H Hb.
  destruct th as [pc a]; destruct pc; simpl in *; repeat case_match; simplify_eq/=;
    eexists; (split; [reflexivity|]); simpl; auto.
Qed.

(** [worker_network]: in every state of a run, a network thread is
    marked [active] exactly while it is between [active = True] and the
    [finally] clause (fetching, retrying, rejecting or putting the
    result); a thread waiting on the request queue, or returned, is not
    active. *)
Theorem net_active_iff_busy env s :
  reachable env s ->
  forall j th, net_threads s !! j = Some th -> n_active th = net_busy (n_pc th).
Proof.
  induction 1 as [tasks|t s s' Hr IH Hs]; intros j th Hj.
  - simpl in Hj. apply list_elem_of_lookup_2, list_elem_of_In, repeat_spec in Hj.
    by subst th.
  - destruct t as [| |i|i]; simpl in Hs.
    + apply orch_step_frame in Hs as (Hn & _). rewrite Hn in Hj. eauto.
    + apply gen_step_frame in Hs as (Hn & _). rewrite Hn in Hj. eauto.
    + destruct (net_threads s !! i) as [th0|] eqn:Hi; [|done].
      destruct (net_step_busy _ _ _ _ _ Hs (IH _ _ Hi)) as (th' & Hn & Hb).
      rewrite Hn in Hj. apply list_lookup_insert_Some in Hj as [(_ & <- & _)|(_ & Hj)]; eauto.
    + destruct (parser_threads s !! i) as [th0|]; [|done].
      apply parser_step_frame in Hs as (_ & _ & Hn & _). rewrite Hn in Hj. eauto.
Qed.

Lemma net_active_iff_busy_witness :
  reachable env_flaky st_req0_fetching /\
  forall j th, net_threads st_req0_fetching !! j = Some th -> n_active th = net_busy (n_pc th).
Proof.
  assert (Hr : reachable env_flaky st_req0_fetching).
  { apply (run_from_reachable env_flaky [SYield (VRequest req0)]
             [TGen; TGen; TGen; TNet 0; TNet 0]).
    vm_compute. reflexivity. }
  exact (conj Hr (net_active_iff_busy env_flaky _ Hr)).
Defined.

(** [worker_parser]: in every state of a run, a parser thread is marked
    [paused] exactly while it is between [paused = True] and
    [paused = False], i.e. blocked in [resume_event.wait()] or just
    woken from it; in particular a parser the orchestrator sees as paused
    is not running a handler. *)
Theorem parser_paused_iff_waiting env s :
  reachable env s ->
  forall j th, parser_threads s !! j = Some th -> p_paused th = parser_waiting (p_pc th).
Proof.
  induction 1 as [tasks|t s s' Hr IH Hs]; intros j th Hj.
  - simpl in Hj. apply list_elem_of_lookup_2, list_elem_of_In, repeat_spec in Hj.
    by subst th.
  - destruct t as [| |i|i]; simpl in Hs.
    + apply orch_step_frame in Hs as (_ & Hp & _). rewrite Hp in Hj. eauto.
    + apply gen_step_frame in Hs as (_ & Hp & _). rewrite Hp in Hj. eauto.
    + destruct (net_threads s !! i) as [th0|]; [|done].
      apply net_step_frame in Hs as (_ & _ & Hp & _). rewrite Hp in Hj. eauto.
    + destruct (parser_threads s !! i) as [th0|] eqn:Hi; [|done].
      destruct (parser_step_waiting _ _ _ _ _ Hs (IH _ _ Hi)) as (th' & Hp & Hb).
      rewrite Hp in Hj. apply list_lookup_insert_Some in Hj as [(_ & <- & _)|(_ & Hj)]; eauto.
Qed.

Lemma parser_paused_iff_waiting_witness :
  reachable env_flaky st_race /\
  forall j th, parser_threads st_race !! j = Some th -> p_paused th = parser_waiting (p_pc th).
Proof.
  assert (Hr : reachable env_flaky st_race).
  { apply (run_from_reachable env_flaky [SYield (VRequest req0)] sched_retry_race).
    vm_compute. reflexivity. }
  exact (conj Hr (parser_paused_iff_waiting env_flaky _ Hr)).
Defined.

(** ** Queue bounds *)

Lemma step_queue_moves env t s s' :
  step env t s = Some s' ->
  queue_moves (request_queue s) (request_queue s') /\
  queue_moves (response_queue s) (response_queue s').
Proof.
  unfold queue_moves.
  destruct t as [| |i|i]; simpl; intros H.
  1: unfold orch_step in H.
  4: destruct (parser_threads s !! i) as [th|]; [|done];
     unfold parser_step, set_parser, push_fatal in H; destruct th as [pc a]; destruct pc.
  3: destruct (net_threads s !! i) as [th|]; [|done];
     unfold net_step, set_net, push_fatal in H; destruct th as [pc a]; destruct pc.
  2: unfold gen_step, push_fatal in H.
  all: repeat case_match; simplify_eq/=.
  all: split; try first [left; reflexivity | right; left; eexists; eassumption
                    | right; right; eexists; eassumption].
  all: right; right; eexists; reflexivity.
Qed.

Lemma within_capacity_moves {A} (q q' : Queue A) :
  within_capacity q -> queue_moves q q' -> within_capacity q' /\ maxsize q' = maxsize q.
Proof.
  unfold within_capacity, queue_moves, qsize. intros Hw [->|[[x Hp]|[x Hg]]].
  - done.
  - unfold q_put, q_full, qsize in Hp.
    destruct ((0 <? maxsize q) && (maxsize q <=? Z.of_nat (length (q_items q)))) eqn:E;
      simplify_eq/=. split; [|done]. intros Hm.
    rewrite length_app. simpl. apply andb_false_iff in E as [E|E].
    + apply Z.ltb_ge in E. lia.
    + apply Z.leb_gt in E. lia.
  - unfold q_get in Hg. destruct (q_items q) as [|y l] eqn:E; simplify_eq/=.
    split; [|done]. intros Hm. specialize (Hw Hm). simpl in Hw. lia.
Qed.

Lemma reachable_queues_capacity env s :
  reachable env s ->
  maxsize (request_queue s) = num_network_threads (config env) /\
  within_capacity (request_queue s) /\
  maxsize (response_queue s) = num_parsers (config env) /\
  within_capacity (response_queue s).
Proof.
  induction 1 as [tasks|t s s' _ IH Hs].
  - unfold within_capacity, qsize. simpl. repeat split; lia.
  - destruct IH as (Hm1 & Hw1 & Hm2 & Hw2).
    apply step_queue_moves in Hs as [H1 H2].
    destruct (within_capacity_moves _ _ Hw1 H1) as [Hw1' Hm1'].
    destruct (within_capacity_moves _ _ Hw2 H2) as [Hw2' Hm2'].
    repeat split; first [assumption | congruence].
Qed.

(** In every state of a run, the request queue keeps
    [maxsize = num_network_threads] and the result queue
    [maxsize = num_parsers], and neither holds more items than its
    [maxsize] when that is positive: every [put] waits for room. *)
Theorem queues_within_capacity env s :
  reachable env s ->
  maxsize (request_queue s) = num_network_threads (config env) /\
  within_capacity (request_queue s) /\
  maxsize (response_queue s) = num_parsers (config env) /\
  within_capacity (response_queue s).
Proof. apply reachable_queues_capacity. Qed.

Lemma queues_within_capacity_witness :
  reachable env_flaky st_race /\
  maxsize (request_queue st_race) = num_network_threads (config env_flaky) /\
  within_capacity (request_queue st_race) /\
  maxsize (response_queue st_race) = num_parsers (config env_flaky) /\
  within_capacity (response_queue st_race).
Proof.
  assert (Hr : reachable env_flaky st_race).
  { apply (run_from_reachable env_flaky [SYield (VRequest req0)] sched_retry_race).
    vm_compute. reflexivity. }
  exact (conj Hr (queues_within_capacity env_flaky _ Hr)).
Defined.

(** ** Runs without network threads *)

(** [start_threads(self._net_threads, num_network_threads, ...)] starts
    no thread when [num_network_threads <= 0]: then no request is ever
    fetched, stored as a statistic or rejected during the run. *)
Theorem no_network_threads_no_calls env s :
  reachable env s -> num_network_threads (config env) <= 0 -> calls s = [].
Proof.
  intros Hr Hn. induction Hr as [tasks|t s s' Hr IH Hs]; [done|].
  destruct t as [| |i|i]; simpl in Hs.
  - apply orch_step_frame in Hs as (_ & _ & _ & ->). exact IH.
  - apply gen_step_frame in Hs as (_ & _ & _ & _ & -> & _). exact IH.
  - destruct (reachable_lengths _ _ Hr) as [Hl _].
    rewrite lookup_ge_None_2 in Hs; [done|]. rewrite Hl. lia.
  - destruct (parser_threads s !! i) as [th|]; [|done].
    apply parser_step_frame in Hs as (_ & _ & _ & _ & _ & _ & ->). exact IH.
Qed.

Lemma no_network_threads_no_calls_witness :
  reachable (mkEnv (mkConfig 0 1 2 10) (fun _ => FOk resp0) [])
    (final_state (mkEnv (mkConfig 0 1 2 10) (fun _ => FOk resp0) [])
       [SYield (VRequest req0); SYield (VRequest req1)] [TGen; TGen; TGen; TGen; TGen]) /\
  num_network_threads (config (mkEnv (mkConfig 0 1 2 10) (fun _ => FOk resp0) [])) <= 0 /\
  calls (final_state (mkEnv (mkConfig 0 1 2 10) (fun _ => FOk resp0) [])
           [SYield (VRequest req0); SYield (VRequest req1)] [TGen; TGen; TGen; TGen; TGen]) = [].
Proof.
  assert (Hr : reachable (mkEnv (mkConfig 0 1 2 10) (fun _ => FOk resp0) [])
    (final_state (mkEnv (mkConfig 0 1 2 10) (fun _ => FOk resp0) [])
       [SYield (VRequest req0); SYield (VRequest req1)] [TGen; TGen; TGen; TGen; TGen])).
  { apply (run_from_reachable _ [SYield (VRequest req0); SYield (VRequest req1)]
             [TGen; TGen; TGen; TGen; TGen]).
    vm_compute. reflexivity. }
  assert (Hn : num_network_threads (config (mkEnv (mkConfig 0 1 2 10) (fun _ => FOk resp0) []))
               <= 0) by (simpl; lia).
  exact (conj Hr (conj Hn (no_network_threads_no_calls _ _ Hr Hn))).
Defined.

(** ** [_work_allowed] *)

(** In every state of a run, [_work_allowed] is [False] only once the
    task generator thread has finished: the orchestrator clears it only
    after [task_generator_thread.is_alive()] returned [False]. *)
Theorem work_disallowed_after_generator env s :
  reachable env s -> work_allowed s = false -> gen_thread s = GFinished.
Proof.
  intros Hr Hw. apply (reachable_gen_done env s Hr). by rewrite Hw.
Qed.

Lemma work_disallowed_after_generator_witness :
  reachable env_no_handler st_returned /\ work_allowed st_returned = false /\
  gen_thread st_returned = GFinished.
Proof.
  assert (Hr : reachable env_no_handler st_returned).
  { apply (run_from_reachable env_no_handler []
      ([TGen] ++ repeat TOrch 6 ++ [TPar 0; TPar 0] ++ repeat TOrch 7 ++ [TPar 0; TPar 0]
       ++ repeat TOrch 7 ++ [TNet 0; TNet 0; TPar 0; TPar 0] ++ repeat TOrch 6)).
    vm_compute. reflexivity. }
  assert (Hw : work_allowed st_returned = false) by (vm_compute; reflexivity).
  exact (conj Hr (conj Hw (work_disallowed_after_generator _ _ Hr Hw))).
Defined.

Lemma step_work_allowed_mono env t s s' :
  step env t s = Some s' -> work_allowed s' = true -> work_allowed s = true.
Proof.
  destruct t as [| |i|i]; simpl; intros H Hw.
  - unfold orch_step in H. repeat case_match; simplify_eq/=; try discriminate; auto; congruence.
  - unfold gen_step, push_fatal in H.
    destruct (gen_thread s) as [[|[[r|v]|ex] rest]|r rest|];
      try destruct (negb (work_allowed s)); try destruct (q_put _ _);
      simplify_eq/=; auto.
  - destruct (net_threads s !! i) as [th|]; [|done].
    unfold net_step, set_net, push_fatal in H.
    destruct th as [pc a]; destruct pc; simpl in *; repeat case_match; simplify_eq/=; auto.
  - destruct (parser_threads s !! i) as [th|]; [|done].
    unfold parser_step, set_parser, push_fatal in H.
    destruct th as [pc a]; destruct pc; simpl in *; repeat case_match; simplify_eq/=; auto.
Qed.

Lemma orch_step_loop_exit env s s' :
  orch_step env s = Some s' -> ELoopExit ∈ orch_log s' ->
  ELoopExit ∈ orch_log s \/ work_allowed s' = false.
Proof.
  unfold orch_step. intros H Hin. repeat case_match; simplify_eq/=; auto.
  all: apply elem_of_app in Hin as [Hin|Hin]; [by left|].
  all: apply list_elem_of_singleton in Hin; try discriminate; by right.
Qed.

Lemma reachable_loop_exit env s :
  reachable env s -> ELoopExit ∈ orch_log s -> work_allowed s = false.
Proof.
  induction 1 as [tasks|t s s' Hr IH Hs]; intros Hin.
  - by apply elem_of_nil in Hin.
  - assert (Hlog : ELoopExit ∈ orch_log s \/ work_allowed s' = false).
    { destruct t as [| | |]; [by eapply orch_step_loop_exit|..];
        apply step_frame in Hs as (_ & _ & _ & _ & Ho & _);
        (rewrite (proj2 (Ho ltac:(discriminate))) in Hin; by left). }
    destruct Hlog as [Hin'|]; [|done].
    destruct (work_allowed s') eqn:Hw; [|done].
    rewrite (step_work_allowed_mono _ _ _ _ Hs Hw) in IH. by apply IH.
Qed.

(** When [run()] returns normally, the loop [while self._work_allowed]
    has ended because the quiescence check cleared [_work_allowed] (no
    fatal error was raised): at that point the task generator thread has
    finished and every network and parser thread has returned. *)
Theorem normal_return_after_quiescence env s :
  reachable env s -> orch_pc s = ODone Returned ->
  work_allowed s = false /\ gen_thread s = GFinished /\ workers_finished s /\
  head (orch_log s) = Some ELoopExit.
Proof.
  intros Hr Hpc. pose proof (reachable_orch_inv _ _ Hr) as Hinv.
  unfold orch_inv in Hinv. rewrite Hpc in Hinv.
  destruct Hinv as [Hfin [p [[Hres Hl]|[ex [Hres _]]]]]; [|discriminate].
  destruct p as [ex|]; [discriminate|].
  assert (Hin : ELoopExit ∈ orch_log s) by (rewrite Hl; by apply elem_of_cons; left).
  pose proof (reachable_loop_exit _ _ Hr Hin) as Hw.
  split; [done|]. split; [by apply (reachable_gen_done _ _ Hr); rewrite Hw|].
  split; [done|]. by rewrite Hl.
Qed.

Lemma normal_return_after_quiescence_witness :
  reachable env_no_handler st_returned /\ orch_pc st_returned = ODone Returned /\
  work_allowed st_returned = false /\ gen_thread st_returned = GFinished /\
  workers_finished st_returned /\ head (orch_log st_returned) = Some ELoopExit.
Proof.
  assert (Hr : reachable env_no_handler st_returned).
  { apply (run_from_reachable env_no_handler []
      ([TGen] ++ repeat TOrch 6 ++ [TPar 0; TPar 0] ++ repeat TOrch 7 ++ [TPar 0; TPar 0]
       ++ repeat TOrch 7 ++ [TNet 0; TNet 0; TPar 0; TPar 0] ++ repeat TOrch 6)).
    vm_compute. reflexivity. }
  assert (Hpc : orch_pc st_returned = ODone Returned) by (vm_compute; reflexivity).
  exact (conj Hr (conj Hpc (normal_return_after_quiescence _ _ Hr Hpc))).
Defined.

(** ** One iteration of the [worker_network] loop *)

Ltac net_run Ht :=
  repeat (unfold set_net, with_request_queue, with_response_queue, with_net_threads,
                 with_calls, with_fatal_errors, push_fatal;
          cbn -[Z.ltb Z.add]; first
    [ rewrite list_lookup_insert_eq by (rewrite ?length_insert; eapply lookup_lt_Some; eassumption)
    | rewrite list_insert_insert_eq
    | rewrite Ht
    | match goal with |- context [net_step] => unfold net_step at 1 end ]).


(** One iteration of [while True:] in [worker_network], for a thread
    waiting on the request queue whose head is [x], with no other
    thread scheduled meanwhile.  A [None] makes the thread return
    without becoming active.  A request [r] is fetched once; then,
    after the [finally] clause, the thread is back at [get()] and not
    active, and: on success [(r, resp)] is on the result queue (if it
    had room); on a [NetworkError] the request, with its count raised by
    one, is put back on the request queue or rejected; on another error
    the error is on the fatal error queue and the request is dropped. *)
Theorem net_loop_iteration env i s a x rest :
  reachable env s ->
  net_threads s !! i = Some (mkNet NGet a) ->
  q_items (request_queue s) = x :: rest ->
  match x with
  | None =>
      exists s', run_sched env [TNet i; TNet i] s = Some s' /\
        net_threads s' = <[i := mkNet NReturned a]> (net_threads s) /\
        q_items (request_queue s') = rest /\ calls s' = calls s /\
        step env (TNet i) s' = None
  | Some r =>
      match transport env r with
      | FOk resp =>
          q_full (response_queue s) = false ->
          exists s', run_sched env (repeat (TNet i) 5) s = Some s' /\
            net_threads s' = <[i := mkNet NGet false]> (net_threads s) /\
            q_items (request_queue s') = rest /\
            q_items (response_queue s') = q_items (response_queue s) ++ [Some (r, resp)] /\
            fatal_errors s' = fatal_errors s /\ calls s' = calls s ++ [CFetch r]
      | FRaise ex =>
          if is_network_error ex then
            (let r' := set_network_try_count r (network_try_count r + 1) in
             exists s', run_sched env (repeat (TNet i) 5) s = Some s' /\
               net_threads s' = <[i := mkNet NGet false]> (net_threads s) /\
               response_queue s' = response_queue s /\ fatal_errors s' = fatal_errors s /\
               (if network_try_limit (config env) <? network_try_count r'
                then q_items (request_queue s') = rest /\
                     calls s' = calls s ++ [CFetch r; CStat "network_try_limit" (url r) ex;
                                            CRejected r' None ex]
                else q_items (request_queue s') = rest ++ [Some r'] /\
                     calls s' = calls s ++ [CFetch r]))
          else
            exists s', run_sched env (repeat (TNet i) 4) s = Some s' /\
              net_threads s' = <[i := mkNet NGet false]> (net_threads s) /\
              q_items (request_queue s') = rest /\ response_queue s' = response_queue s /\
              fatal_errors s' = fatal_errors s ++ [ex] /\ calls s' = calls s ++ [CFetch r]
      end
  end.
Proof.
  intros Hr Hi Hq.
  destruct (reachable_queues_capacity _ _ Hr) as (_ & Hw & _).
  destruct s as [[m items] rq fe wa pe re g nts pts opc ol cs]; simpl in *; subst items.
  assert (Hlt : (i < length nts)%nat) by (eapply lookup_lt_Some; eauto).
  destruct x as [r|].
  - destruct (transport env r) as [resp|ex] eqn:Ht.
    + intros Hfull. rewrite Hi. net_run Ht. unfold q_put at 1; rewrite Hfull. net_run Ht.
      eexists; split; [reflexivity|]. simpl. done.
    + destruct (is_network_error ex) eqn:Hex; simpl.
      * rewrite Hi. net_run Ht. rewrite Hex.
        destruct (network_try_limit (config env) <? network_try_count r + 1) eqn:E;
          net_run Ht.
        -- eexists; split; [reflexivity|]. simpl. by rewrite <- app_assoc.
        -- assert (Hnf : q_full (mkQueue m rest) = false).
           { unfold q_full, qsize; simpl.
             unfold within_capacity, qsize in Hw; simpl in Hw.
             destruct (Z.ltb_spec 0 m); destruct (Z.leb_spec m (Z.of_nat (length rest)));
               simpl; lia. }
           unfold q_put at 1; rewrite Hnf. net_run Ht.
           eexists; split; [reflexivity|]. simpl. done.
      * rewrite Hi. net_run Ht. rewrite Hex. net_run Ht.
        eexists; split; [reflexivity|]. simpl. done.
  - eexists; split.
    { simpl. rewrite Hi. net_run Hi. reflexivity. }
    unfold set_net, with_request_queue; simpl. rewrite list_insert_insert_eq.
    do 3 (split; [done|]).
    simpl. rewrite list_lookup_insert_eq by done. done.
Qed.

Lemma net_loop_iteration_witness :
  reachable env_no_handler st_ok_queued /\
  net_threads st_ok_queued !! 0%nat = Some (mkNet NGet false) /\
  q_items (request_queue st_ok_queued) = [Some req0] /\
  q_full (response_queue st_ok_queued) = false /\
  exists s', run_sched env_no_handler (repeat (TNet 0) 5) st_ok_queued = Some s' /\
    net_threads s' = <[0%nat := mkNet NGet false]> (net_threads st_ok_queued) /\
    q_items (request_queue s') = [] /\
    q_items (response_queue s') = q_items (response_queue st_ok_queued) ++ [Some (req0, resp0)] /\
    fatal_errors s' = fatal_errors st_ok_queued /\
    calls s' = calls st_ok_queued ++ [CFetch req0].
Proof.
  assert (Hr : reachable env_no_handler st_ok_queued).
  { apply (run_from_reachable env_no_handler [SYield (VRequest req0)] [TGen; TGen; TGen]).
    vm_compute. reflexivity. }
  assert (Hi : net_threads st_ok_queued !! 0%nat = Some (mkNet NGet false))
    by (vm_compute; reflexivity).
  assert (Hq : q_items (request_queue st_ok_queued) = [Some req0])
    by (vm_compute; reflexivity).
  assert (Hf : q_full (response_queue st_ok_queued) = false)
    by (vm_compute; reflexivity).
  refine (conj Hr (conj Hi (conj Hq (conj Hf _)))).
  exact (net_loop_iteration env_no_handler 0 st_ok_queued false (Some req0) [] Hr Hi Hq Hf).
Defined.

(** ** Requests yielded by a handler *)

(** [worker_parser]: a parser iterating over a handler's result whose
    next items are the requests [rs] puts them, in order, on the request
    queue, one statement each, when the queue has room for all of them
    (or is unbounded); it then goes on with the rest of the result, its
    [paused] flag unchanged, and touches neither the result queue, the
    fatal error queue nor the hooks. *)
Theorem parser_puts_yielded_requests env i s paused rs rest :
  parser_threads s !! i =
    Some (mkParser (PIter (map (fun r => SYield (VRequest r)) rs ++ rest)) paused) ->
  (maxsize (request_queue s) <= 0 \/
   Z.of_nat (qsize (request_queue s) + length rs) <= maxsize (request_queue s)) ->
  exists s', run_sched env (repeat (TPar i) (length rs)) s = Some s' /\
    maxsize (request_queue s') = maxsize (request_queue s) /\
    q_items (request_queue s') = q_items (request_queue s) ++ map Some rs /\
    parser_threads s' = <[i := mkParser (PIter rest) paused]> (parser_threads s) /\
    response_queue s' = response_queue s /\ fatal_errors s' = fatal_errors s /\
    calls s' = calls s.
Proof.
  revert s. induction rs as [|r rs IH]; intros s Hi Hcap.
  - exists s. simpl in *. rewrite app_nil_r, list_insert_id by done. done.
  - assert (Hlt : (i < length (parser_threads s))%nat) by (eapply lookup_lt_Some; eauto).
    assert (Hnf : q_full (request_queue s) = false).
    { unfold q_full. simpl in Hcap.
      destruct (Z.ltb_spec 0 (maxsize (request_queue s)));
        destruct (Z.leb_spec (maxsize (request_queue s)) (Z.of_nat (qsize (request_queue s))));
        simpl; lia. }
    set (s1 := with_request_queue
                 (mkQueue (maxsize (request_queue s)) (q_items (request_queue s) ++ [Some r]))
                 (set_parser s i (mkParser (PIter (map (fun r => SYield (VRequest r)) rs ++ rest))
                                           paused))).
    assert (Hstep : step env (TPar i) s = Some s1).
    { unfold step. rewrite Hi. unfold parser_step. cbn [p_pc p_paused map app].
      unfold q_put. rewrite Hnf. reflexivity. }
    destruct (IH s1) as (s' & Hrun & Hm & Hq & Hp & Hrq & Hfe & Hc).
    { subst s1. unfold with_request_queue, set_parser, with_parser_threads; simpl.
      by rewrite list_lookup_insert_eq. }
    { subst s1. simpl. unfold qsize in *; simpl in *. rewrite length_app. simpl. lia. }
    exists s'. cbn [length repeat run_sched]. rewrite Hstep.
    subst s1; simpl in *.
    rewrite Hm, Hq, Hp, Hrq, Hfe, Hc.
    rewrite <- app_assoc, list_insert_insert_eq. done.
Qed.

Lemma parser_puts_yielded_requests_witness :
  parser_threads st_parser_iter !! 0%nat =
    Some (mkParser (PIter (map (fun r => SYield (VRequest r)) [req1] ++ [])) false) /\
  Z.of_nat (qsize (request_queue st_parser_iter) + length [req1])
    <= maxsize (request_queue st_parser_iter) /\
  exists s', run_sched env_yielding_handler (repeat (TPar 0) (length [req1])) st_parser_iter
               = Some s' /\
    maxsize (request_queue s') = maxsize (request_queue st_parser_iter) /\
    q_items (request_queue s') = q_items (request_queue st_parser_iter) ++ map Some [req1] /\
    parser_threads s' = <[0%nat := mkParser (PIter []) false]> (parser_threads st_parser_iter) /\
    response_queue s' = response_queue st_parser_iter /\
    fatal_errors s' = fatal_errors st_parser_iter /\ calls s' = calls st_parser_iter.
Proof.
  assert (Hi : parser_threads st_parser_iter !! 0%nat =
                 Some (mkParser (PIter (map (fun r => SYield (VRequest r)) [req1] ++ [])) false))
    by (vm_compute; reflexivity).
  assert (Hc : Z.of_nat (qsize (request_queue st_parser_iter) + length [req1])
                 <= maxsize (request_queue st_parser_iter))
    by (apply Z.leb_le; vm_compute; reflexivity).
  refine (conj Hi (conj Hc _)).
  exact (parser_puts_yielded_requests env_yielding_handler 0 st_parser_iter false [req1] []
           Hi (or_intror Hc)).
Defined.

(** ** C6: [network_try_count] over a whole run *)

Ltac counts_solve :=
  repeat match goal with
  | |- _ /\ _ => split
  | |- Forall _ (<[_:=_]> _) => apply Forall_insert
  | |- Forall _ (_ ++ _) => apply Forall_app_2
  | |- Forall _ (_ :: _) => constructor
  | |- Forall _ [] => constructor
  end;
  cbn in *; repeat match goal with Hc : _ /\ _ |- _ => destruct Hc end;
  try (assumption || exact I || done || lia).

Lemma orch_step_queues env s s' :
  orch_step env s = Some s' ->
  (q_items (request_queue s') = q_items (request_queue s) \/
   q_items (request_queue s') = q_items (request_queue s) ++ [None]) /\
  (q_items (response_queue s') = q_items (response_queue s) \/
   q_items (response_queue s') = q_items (response_queue s) ++ [None]).
Proof.
  unfold orch_step; intros H; repeat case_match; simplify_eq/=; auto.
  all: match goal with Hp : q_put _ _ = Some _ |- _ => apply q_put_items in Hp; rewrite Hp end.
  all: auto.
Qed.

Section counts.
Variable env : Env.
Let L := network_try_limit (config env).
Hypothesis handlers_ok : forall t h r resp items,
  lookup_handler (handlers env) t = Some h -> h r resp = HIter items ->
  Forall (item_ok L) items.

Lemma counts_inv_orch s s' :
  counts_inv L s -> orch_step env s = Some s' -> counts_inv L s'.
Proof.
  intros (H1 & H2 & H3 & H4 & H5 & H6) Hs. unfold counts_inv.
  destruct (orch_step_frame _ _ _ Hs) as (-> & -> & -> & ->).
  destruct (orch_step_queues _ _ _ Hs) as [[-> | ->] [-> | ->]]; counts_solve.
Qed.

Lemma counts_inv_gen s s' :
  counts_inv L s -> gen_step s = Some s' -> counts_inv L s'.
Proof.
  intros (H1 & H2 & H3 & H4 & H5 & H6) Hs. unfold gen_step in Hs.
  destruct (gen_thread s) as [items|r rest|] eqn:Hg; [|destruct (q_put _ _) as [q|] eqn:Hp|];
    repeat case_match; simplify_eq/=; unfold counts_inv; cbn.
  all: rewrite ?Hg in H5; cbn in H5.
  all: try (apply q_put_items in Hp; rewrite Hp).
  all: repeat match goal with Hf : Forall _ (_ :: _) |- _ => apply Forall_cons_1 in Hf as [? ?] end.
  all: counts_solve.
Qed.

Lemma counts_inv_net i th s s' :
  counts_inv L s -> net_threads s !! i = Some th -> net_step env i th s = Some s' ->
  counts_inv L s'.
Proof.
  intros (H1 & H2 & H3 & H4 & H5 & H6) Hi Hs.
  pose proof (Forall_lookup_1 _ _ _ _ H3 Hi) as Hth.
  destruct th as [pc a]; cbn in Hth. unfold net_step in Hs; cbn in Hs.
  destruct pc; repeat case_match; simplify_eq/=; unfold counts_inv; cbn.
  all: repeat match goal with
       | Hg : q_get _ = Some _ |- _ => apply q_get_items in Hg; rewrite Hg in H1
       | Hp : q_put _ _ = Some _ |- _ => apply q_put_items in Hp; rewrite Hp
       | Hf : Forall _ (_ :: _) |- _ => apply Forall_cons_1 in Hf as [? ?]
       | Hb : (_ <? _) = true |- _ => apply Z.ltb_lt in Hb
       | Hb : (_ <? _) = false |- _ => apply Z.ltb_ge in Hb
       end.
  all: unfold count_ok, L in *; counts_solve.
Qed.

Lemma counts_inv_parser i th s s' :
  counts_inv L s -> parser_threads s !! i = Some th -> parser_step env i th s = Some s' ->
  counts_inv L s'.
Proof.
  intros (H1 & H2 & H3 & H4 & H5 & H6) Hi Hs.
  pose proof (Forall_lookup_1 _ _ _ _ H4 Hi) as Hth.
  destruct th as [pc a]; cbn in Hth. unfold parser_step in Hs; cbn in Hs.
  destruct pc; repeat case_match; simplify_eq/=; unfold counts_inv; cbn.
  all: repeat match goal with
       | Hg : q_get _ = Some _ |- _ => apply q_get_items in Hg; rewrite Hg in H2
       | Hp : q_put _ _ = Some _ |- _ => apply q_put_items in Hp; rewrite Hp
       | Hf : Forall _ (_ :: _) |- _ => apply Forall_cons_1 in Hf as [? ?]
       end.
  all: counts_solve.
  all: eapply handlers_ok; eauto.
Qed.

Lemma counts_inv_step t s s' :
  counts_inv L s -> step env t s = Some s' -> counts_inv L s'.
Proof.
  intros Hinv Hs. destruct t as [| |i|i]; cbn [step] in Hs.
  - eapply counts_inv_orch; eauto.
  - eapply counts_inv_gen; eauto.
  - destruct (net_threads s !! i) eqn:Hi; [|done]. eapply counts_inv_net; eauto.
  - destruct (parser_threads s !! i) eqn:Hi; [|done]. eapply counts_inv_parser; eauto.
Qed.

Lemma counts_inv_run ts s s' :
  counts_inv L s -> run_sched env ts s = Some s' -> counts_inv L s'.
Proof.
  revert s. induction ts as [|t ts IH]; intros s Hinv Hs; cbn in Hs.
  - by simplify_eq.
  - destruct (step env t s) eqn:Ht; [|done]. eapply IH; [|exact Hs].
    eapply counts_inv_step; eauto.
Qed.

Lemma counts_inv_init tasks :
  Forall (item_ok L) tasks -> counts_inv L (init_state (config env) tasks).
Proof.
  intros Ht. unfold counts_inv, init_state; cbn.
  repeat split; try constructor; try done.
  all: apply Forall_forall; intros x Hx; apply list_elem_of_In, repeat_spec in Hx; by subst x.
Qed.

End counts.


